(** * api-weather: the expiring cache and the weather gateway of [src/index.ts]

    A shallow embedding of the TypeScript source.  JavaScript values that
    flow through the program untyped ([any]: the upstream payloads, the
    cached snapshots, the JSON bodies) are one inductive type [jsval]; the
    [Map] inside [WeatherCache] is a [gmap string CacheEntry]; [Date.now()]
    is a field of the world state; the [async] methods of [WeatherAPI] are
    functions in a state-and-exception monad over that world. *)

From Stdlib Require Import ZArith QArith Lia Ascii String.
From stdpp Require Import base strings list gmap pretty.

Local Set Warnings "-register-all".
Local Open Scope string_scope.
Local Open Scope list_scope.
Local Open Scope Z_scope.

(** ** JavaScript values *)

(** The values the program handles without looking inside.  Numbers of a
    payload are only ever copied, so they are kept as exact rationals (JSON
    has neither NaN nor infinities).  An object is the list of its own
    properties in insertion order; objects built by [JSON.parse] or by an
    object literal have pairwise distinct keys. *)
Inductive jsval : Type :=
  | VUndefined
  | VNull
  | VBool (b : bool)
  | VNum (q : Q)
  | VStr (s : string)
  | VArr (items : list jsval)
  | VObj (props : list (string * jsval)).

(** ToBoolean, as used by [if (x)], [x && y] and [x || y]. *)
Definition truthy (v : jsval) : bool :=
  match v with
  | VUndefined | VNull => false
  | VBool b => b
  | VNum q => negb (Z.eqb (Qnum q) 0)
  | VStr s => negb (String.eqb s "")
  | VArr _ | VObj _ => true
  end.

Definition nullish (v : jsval) : bool :=
  match v with
  | VUndefined | VNull => true
  | _ => false
  end.

Fixpoint own_prop (k : string) (props : list (string * jsval)) : option jsval :=
  match props with
  | [] => None
  | (k', v) :: rest => if String.eqb k k' then Some v else own_prop k rest
  end.

(** The value of [v.k] where [v] is neither [null] nor [undefined]: the own
    property of an object, [undefined] when it has none.  None of the
    property names this program reads is an inherited property of a string,
    number, boolean or array, so reading them off such a value gives
    [undefined] too. *)
Definition field (v : jsval) (k : string) : jsval :=
  match v with
  | VObj props => default VUndefined (own_prop k props)
  | _ => VUndefined
  end.

Definition keys (v : jsval) : list string :=
  match v with
  | VObj props => props.*1
  | _ => []
  end.

(** ** The expiring cache: [class WeatherCache] *)

Module WeatherCache.

(** [interface CacheEntry<T>] with [T = any]. *)
Record CacheEntry : Type := mkEntry { data : jsval; timestamp : Z }.

(** The two private fields of the class.  Times and durations are
    integer milliseconds, as [Date.now()] returns them. *)
Record t : Type := mk { cache : gmap string CacheEntry; cacheDuration : Z }.

(** [constructor(cacheDurationMs)] *)
Definition new (cacheDurationMs : Z) : t :=
  {| cache := ∅; cacheDuration := cacheDurationMs |}.

(** [get<T>(key)], with [now] the value of [Date.now()] at the call.
    Returns the value of the [return] statement and the cache after. *)
Definition get (now : Z) (key : string) (c : t) : jsval * t :=
  match cache c !! key with
  | Some entry =>
      if now - timestamp entry <? cacheDuration c
      then (data entry, c)
      else (VNull, {| cache := delete key (cache c);
                      cacheDuration := cacheDuration c |})
  | None => (VNull, c)
  end.

(** [set<T>(key, data)], with [now] the value of [Date.now()] at the call. *)
Definition set (now : Z) (key : string) (d : jsval) (c : t) : t :=
  {| cache := <[key := {| data := d; timestamp := now |}]> (cache c);
     cacheDuration := cacheDuration c |}.

End WeatherCache.

(** ** Failures, the upstream provider and the world *)

(** What a [throw] (a rejected promise) carries.  An [AxiosError] holds the
    upstream response (status and parsed body) when one was received; every
    other exception of this program is a [TypeError] raised by reading a
    property of [undefined] or [null], or by calling [.map] on a value that
    is not an array. *)
Inductive js_error : Type :=
  | AxiosError (response : option (Z * jsval))
  | TypeError.

Inductive completion (A : Type) : Type :=
  | Normal (a : A)
  | Throw (e : js_error).
Arguments Normal {A} a.
Arguments Throw {A} e.

(** An [axios.get(url, { params })] call. *)
Record Request : Type := mkRequest { url : string; params : list (string * jsval) }.

(** What the provider does with a request: after [latency] milliseconds the
    promise resolves with [response.data] ([inl]) or rejects with an
    [AxiosError] ([inr], with the response if there is one). *)
Record Reply : Type :=
  mkReply { latency : nat; result : jsval + option (Z * jsval) }.

(** The state one request handler runs in: the [WeatherAPI] instance (its
    [apiKey] and its [cache]), the clock, the provider (its answer to the
    n-th request, counted from 0) and the requests sent so far.  Handlers
    run one after the other. *)
Record World : Type := mkWorld {
  apiKey : string;
  cache : WeatherCache.t;
  now : Z;
  net : nat → Request → Reply;
  log : list Request
}.

(** [new WeatherAPI(apiKey, cacheDurationMs = 15 * 60 * 1000)], started at
    time [t0] in front of provider [n]. *)
Definition default_duration : Z := 15 * 60 * 1000.

Definition new_WeatherAPI (key : string) (cacheDurationMs : Z)
    (t0 : Z) (n : nat → Request → Reply) : World :=
  {| apiKey := key; cache := WeatherCache.new cacheDurationMs;
     now := t0; net := n; log := [] |}.

(** The clock moves between two handlers. *)
Definition at_time (t : Z) (w : World) : World :=
  {| apiKey := apiKey w; cache := cache w; now := t; net := net w; log := log w |}.

(** ** The monad of the [async] methods *)

Definition M (A : Type) : Type := World → completion A * World.

Definition ret {A} (a : A) : M A := λ w, (Normal a, w).
Definition throw {A} (e : js_error) : M A := λ w, (Throw e, w).
Definition bind {A B} (k : A → M B) (m : M A) : M B :=
  λ w, match m w with
       | (Normal a, w') => k a w'
       | (Throw e, w') => (Throw e, w')
       end.

(** stdpp's [x ← m; k] and [m;; k] are the sequencing of [M]. *)
#[global] Instance M_ret : MRet M := @ret.
#[global] Instance M_bind : MBind M := @bind.

Fixpoint mapM {A B} (f : A → M B) (l : list A) : M (list B) :=
  match l with
  | [] => ret []
  | a :: l' => b ← f a; bs ← mapM f l'; ret (b :: bs)
  end.

(** [this.apiKey] *)
Definition this_apiKey : M string := λ w, (Normal (apiKey w), w).

(** The world with another cache, and the world once a request has been
    answered: the request is recorded and the clock has advanced by the
    latency of its reply. *)
Definition with_cache (c : WeatherCache.t) (w : World) : World :=
  {| apiKey := apiKey w; cache := c; now := now w; net := net w; log := log w |}.

Definition reply_to (req : Request) (w : World) : Reply :=
  net w (length (log w)) req.

Definition with_request (req : Request) (w : World) : World :=
  {| apiKey := apiKey w; cache := cache w;
     now := now w + Z.of_nat (latency (reply_to req w));
     net := net w; log := log w ++ [req] |}.

(** [this.cache.get(key)] and [this.cache.set(key, data)], at the current
    value of [Date.now()]. *)
Definition cache_get (key : string) : M jsval :=
  λ w, let '(v, c) := WeatherCache.get (now w) key (cache w) in
       (Normal v, with_cache c w).

Definition cache_set (key : string) (d : jsval) : M unit :=
  λ w, (Normal tt, with_cache (WeatherCache.set (now w) key d (cache w)) w).

(** [(await axios.get(url, { params })).data] *)
Definition axios_get (u : string) (ps : list (string * jsval)) : M jsval :=
  λ w, let req := {| url := u; params := ps |} in
       match result (reply_to req w) with
       | inl d => (Normal d, with_request req w)
       | inr resp => (Throw (AxiosError resp), with_request req w)
       end.

(** [v.k] *)
Definition get_prop (v : jsval) (k : string) : M jsval :=
  if nullish v then throw TypeError else ret (field v k).

(** [v.k1.k2...] *)
Fixpoint path (v : jsval) (ks : list string) : M jsval :=
  match ks with
  | [] => ret v
  | k :: ks' => v' ← get_prop v k; path v' ks'
  end.

(** [v.map(f)] *)
Definition js_map (f : jsval → M jsval) (v : jsval) : M jsval :=
  match v with
  | VArr items => items' ← mapM f items; ret (VArr items')
  | _ => throw TypeError
  end.

(** ** The gateway: [class WeatherAPI] *)

Definition baseUrl : string := "http://api.weatherapi.com/v1".

(** The template literals [`current_${location}`] and
    [`forecast_${location}_${days}`].  A day count is given by its integer
    value.  JavaScript prints a number that is an integer below 2^53 in
    absolute value digit for digit, with a leading [-] when negative, as
    [pretty] does; what is stated about the keys of forecasts is stated for
    those day counts ([exact_integer], with the HTTP layer below). *)
Definition current_key (location : string) : string :=
  "current_" +:+ location.

Definition forecast_key (location : string) (days : Z) : string :=
  "forecast_" +:+ location +:+ "_" +:+ pretty days.

Definition getCurrentWeather (location : string) : M jsval :=
  let cacheKey := current_key location in
  cachedData ← cache_get cacheKey;
  if truthy cachedData then ret cachedData else
  key ← this_apiKey;
  data ← axios_get (baseUrl +:+ "/current.json")
           [("key", VStr key); ("q", VStr location); ("aqi", VStr "yes")];
  name ← path data ["location"; "name"];
  region ← path data ["location"; "region"];
  country ← path data ["location"; "country"];
  lat ← path data ["location"; "lat"];
  lon ← path data ["location"; "lon"];
  localTime ← path data ["location"; "localtime"];
  tempC ← path data ["current"; "temp_c"];
  tempF ← path data ["current"; "temp_f"];
  condition ← path data ["current"; "condition"; "text"];
  windKph ← path data ["current"; "wind_kph"];
  windDir ← path data ["current"; "wind_dir"];
  humidity ← path data ["current"; "humidity"];
  feelsLikeC ← path data ["current"; "feelslike_c"];
  feelsLikeF ← path data ["current"; "feelslike_f"];
  uv ← path data ["current"; "uv"];
  airQuality ← path data ["current"; "air_quality"];
  let weatherData :=
    VObj [("location",
           VObj [("name", name); ("region", region); ("country", country);
                 ("lat", lat); ("lon", lon); ("localTime", localTime)]);
          ("current",
           VObj [("tempC", tempC); ("tempF", tempF); ("condition", condition);
                 ("windKph", windKph); ("windDir", windDir);
                 ("humidity", humidity); ("feelsLikeC", feelsLikeC);
                 ("feelsLikeF", feelsLikeF); ("uv", uv);
                 ("airQuality", airQuality)])] in
  cache_set cacheKey weatherData;;
  ret weatherData.

(** The callback of [day.hour.map(...)]. *)
Definition hourly_of (hour : jsval) : M jsval :=
  time ← path hour ["time"];
  tempC ← path hour ["temp_c"];
  condition ← path hour ["condition"; "text"];
  windKph ← path hour ["wind_kph"];
  windDir ← path hour ["wind_dir"];
  precipitation ← path hour ["precip_mm"];
  humidity ← path hour ["humidity"];
  ret (VObj [("time", time); ("tempC", tempC); ("condition", condition);
             ("windKph", windKph); ("windDir", windDir);
             ("precipitation", precipitation); ("humidity", humidity)]).

(** The callback of [response.data.forecast.forecastday.map(...)]. *)
Definition daily_of (day : jsval) : M jsval :=
  date ← path day ["date"];
  maxTempC ← path day ["day"; "maxtemp_c"];
  minTempC ← path day ["day"; "mintemp_c"];
  avgTempC ← path day ["day"; "avgtemp_c"];
  maxWindKph ← path day ["day"; "maxwind_kph"];
  totalPrecipMm ← path day ["day"; "totalprecip_mm"];
  avgHumidity ← path day ["day"; "avghumidity"];
  condition ← path day ["day"; "condition"; "text"];
  sunrise ← path day ["astro"; "sunrise"];
  sunset ← path day ["astro"; "sunset"];
  hours ← path day ["hour"];
  hourly ← js_map hourly_of hours;
  ret (VObj [("date", date); ("maxTempC", maxTempC); ("minTempC", minTempC);
             ("avgTempC", avgTempC); ("maxWindKph", maxWindKph);
             ("totalPrecipMm", totalPrecipMm); ("avgHumidity", avgHumidity);
             ("condition", condition); ("sunrise", sunrise);
             ("sunset", sunset); ("hourly", hourly)]).

Definition getForecast (location : string) (days : Z) : M jsval :=
  let cacheKey := forecast_key location days in
  cachedData ← cache_get cacheKey;
  if truthy cachedData then ret cachedData else
  key ← this_apiKey;
  data ← axios_get (baseUrl +:+ "/forecast.json")
           [("key", VStr key); ("q", VStr location);
            ("days", VNum (inject_Z days)); ("aqi", VStr "yes")];
  name ← path data ["location"; "name"];
  region ← path data ["location"; "region"];
  country ← path data ["location"; "country"];
  lat ← path data ["location"; "lat"];
  lon ← path data ["location"; "lon"];
  forecastday ← path data ["forecast"; "forecastday"];
  forecast ← js_map daily_of forecastday;
  let forecastData :=
    VObj [("location",
           VObj [("name", name); ("region", region); ("country", country);
                 ("lat", lat); ("lon", lon)]);
          ("forecast", forecast)] in
  cache_set cacheKey forecastData;;
  ret forecastData.

(** The callback of [response.data.map(...)] in [searchLocations]. *)
Definition location_of (location : jsval) : M jsval :=
  name ← path location ["name"];
  region ← path location ["region"];
  country ← path location ["country"];
  lat ← path location ["lat"];
  lon ← path location ["lon"];
  ret (VObj [("name", name); ("region", region); ("country", country);
             ("lat", lat); ("lon", lon)]).

Definition searchLocations (query : string) : M jsval :=
  key ← this_apiKey;
  data ← axios_get (baseUrl +:+ "/search.json")
           [("key", VStr key); ("q", VStr query)];
  js_map location_of data.

(** ** The HTTP layer *)

(** An integer that may be missing: the status of an upstream response,
    [NaN] standing for [undefined]; both are falsy, as 0 is. *)
Inductive number : Type :=
  | NaN
  | Int (z : Z).

(** [n || d] for a number [n] and a numeric default [d]. *)
Definition number_or (n : number) (d : Z) : Z :=
  match n with
  | NaN => d
  | Int z => if Z.eqb z 0 then d else z
  end.

(** What Express puts in [req.query.days]: a string, an array (the parameter
    given several times) or a nested object; [None] is [undefined]. *)
Inductive qs_value : Type :=
  | QStr (s : string)
  | QArr (items : list qs_value)
  | QObj.

Fixpoint join_comma (l : list string) : string :=
  match l with
  | [] => ""
  | [s] => s
  | s :: rest => s +:+ "," +:+ join_comma rest
  end.

(** ToString, which [parseInt] applies to its argument (the cast
    [as string] does nothing at run time). *)
Fixpoint qs_to_string (v : qs_value) : string :=
  match v with
  | QStr s => s
  | QArr items => join_comma (map qs_to_string items)
  | QObj => "[object Object]"
  end.

Definition query_to_string (v : option qs_value) : string :=
  match v with
  | None => "undefined"
  | Some q => qs_to_string q
  end.

(** Strings are byte strings: the UTF-8 encoding of the JavaScript string.

    The white space [parseInt] skips.  One byte: tab, line feed, vertical
    tab, form feed, carriage return and space. *)
Definition is_white_space (a : ascii) : bool :=
  let n := nat_of_ascii a in
  ((9 <=? n)%nat && (n <=? 13)%nat) || (n =? 32)%nat.

(** Two bytes: U+00A0 (C2 A0). *)
Definition white_space_2 (a b : ascii) : bool :=
  (nat_of_ascii a =? 194)%nat && (nat_of_ascii b =? 160)%nat.

(** Three bytes: U+1680 (E1 9A 80), U+2000 to U+200A (E2 80 80 to E2 80 8A),
    U+2028, U+2029, U+202F (E2 80 A8, A9, AF), U+205F (E2 81 9F), U+3000
    (E3 80 80) and U+FEFF (EF BB BF). *)
Definition white_space_3 (a b c : ascii) : bool :=
  let x := nat_of_ascii a in
  let y := nat_of_ascii b in
  let z := nat_of_ascii c in
  ((x =? 225) && (y =? 154) && (z =? 128)
   || (x =? 226) && (y =? 128)
      && ((128 <=? z) && (z <=? 138) || (z =? 168) || (z =? 169) || (z =? 175))
   || (x =? 226) && (y =? 129) && (z =? 159)
   || (x =? 227) && (y =? 128) && (z =? 128)
   || (x =? 239) && (y =? 187) && (z =? 191))%nat.

Fixpoint trim_start (s : string) : string :=
  match s with
  | String a s1 =>
      if is_white_space a then trim_start s1 else
      match s1 with
      | String b s2 =>
          if white_space_2 a b then trim_start s2 else
          match s2 with
          | String c s3 => if white_space_3 a b c then trim_start s3 else s
          | EmptyString => s
          end
      | EmptyString => s
      end
  | EmptyString => s
  end.

(** The value of a character as a digit in the given radix (10 or 16). *)
Definition digit_value (radix : Z) (a : ascii) : option Z :=
  let n := Z.of_nat (nat_of_ascii a) in
  let d := if (48 <=? n) && (n <=? 57) then n - 48
           else if (97 <=? n) && (n <=? 122) then n - 97 + 10
           else if (65 <=? n) && (n <=? 90) then n - 65 + 10
           else radix in
  if d <? radix then Some d else None.

(** The value of the longest prefix of digits; [acc] is [None] until a digit
    has been read. *)
Fixpoint parse_digits (radix : Z) (s : string) (acc : option Z) : option Z :=
  match s with
  | String a s' =>
      match digit_value radix a with
      | Some d => parse_digits radix s' (Some (radix * default 0 acc + d))
      | None => acc
      end
  | EmptyString => acc
  end.

(** What [parseInt] returns: [NaN], a double whose value is an integer, or
    an infinity.  The two zeros are one value here; both are falsy. *)
Inductive int_double : Type :=
  | NotANumber
  | Finite (z : Z)
  | Infinite (negative : bool).

(** The double nearest to an integer: the integer itself below 2^53 in
    absolute value; from there on, its 53 leading bits rounded to nearest,
    ties to even, and an infinity when the rounded value reaches 2^1024. *)
Definition to_double (z : Z) : int_double :=
  let a := Z.abs z in
  if a <? 2 ^ 53 then Finite z else
  let e := Z.log2 a - 52 in
  let q := Z.shiftr a e in
  let r := a mod 2 ^ e in
  let half := 2 ^ (e - 1) in
  let q' := if (half <? r) || (r =? half) && Z.odd q then q + 1 else q in
  let v := q' * 2 ^ e in
  if 2 ^ 1024 <=? v then Infinite (z <? 0) else Finite (Z.sgn z * v).

(** [parseInt(string)] without a radix: leading white space, an optional
    sign, an optional [0x] or [0X] prefix, then the longest prefix of
    digits, read as an integer and rounded to a double; [NaN] when there is
    no digit.  (ECMAScript lets an implementation approximate a decimal
    number of more than 20 digits; V8, under Node, rounds it correctly.) *)
Definition parseInt (input : string) : int_double :=
  let s := trim_start input in
  let '(sign, s) := match s with
                    | String "-"%char r => (-1, r)
                    | String "+"%char r => (1, r)
                    | _ => (1, s)
                    end in
  let '(radix, s) := match s with
                     | String "0"%char (String "x"%char r) => (16, r)
                     | String "0"%char (String "X"%char r) => (16, r)
                     | _ => (10, s)
                     end in
  match parse_digits radix s None with
  | Some n => to_double (sign * n)
  | None => NotANumber
  end.

(** [n || d] for what [parseInt] returned and a numeric default [d]. *)
Definition double_or (n : int_double) (d : Z) : int_double :=
  match n with
  | NotANumber => Finite d
  | Finite z => if Z.eqb z 0 then Finite d else n
  | Infinite _ => n
  end.

(** The integers below 2^53 in absolute value: each is a double, and the
    template literal of the cache key and the query string of the request
    print it digit for digit.  [getForecast] is modelled for these day
    counts. *)
Definition exact_integer (z : Z) : bool := Z.abs z <? 2 ^ 53.

Record HttpResponse : Type := mkResponse { status : Z; body : jsval }.

(** [res.json(value)] *)
Definition res_json (v : jsval) : HttpResponse := {| status := 200; body := v |}.

(** [v?.k] *)
Definition opt_field (v : jsval) (k : string) : jsval :=
  if nullish v then VUndefined else field v k.

(** [a || b] *)
Definition or_else (a b : jsval) : jsval := if truthy a then a else b.

Definition errorHandler (err : js_error) : HttpResponse :=
  match err with
  | AxiosError response =>
      let st := match response with
                | Some (st, _) => Int st
                | None => NaN     (* undefined *)
                end in
      let data := match response with
                  | Some (_, d) => d
                  | None => VUndefined
                  end in
      {| status := number_or st 500;
         body := VObj [("error",
                        or_else (opt_field (opt_field data "error") "message")
                          (VStr "An error occurred with the weather service"))] |}
  | TypeError =>
      {| status := 500; body := VObj [("error", VStr "Internal server error")] |}
  end.

(** [try { res.json(await op) } catch (error) { next(error) }], [next]
    passing the error to [errorHandler]. *)
Definition respond (op : M jsval) (w : World) : HttpResponse * World :=
  match op w with
  | (Normal v, w') => (res_json v, w')
  | (Throw e, w') => (errorHandler e, w')
  end.

(** The day count the forecast route computes from [req.query.days]:
    [parseInt(req.query.days as string) || 3]. *)
Definition route_days (days : option qs_value) : int_double :=
  double_or (parseInt (query_to_string days)) 3.

(** [GET /api/weather/current/:location] *)
Definition route_current (location : string) : World → HttpResponse * World :=
  respond (getCurrentWeather location).

(** [GET /api/weather/forecast/:location], with [req.query.days].  The
    route passes whatever day count it computed; the answer is given here
    for the day counts [getForecast] is modelled for, [None] otherwise (a
    double from 2^53 on, which JavaScript prints in its shortest form, or an
    infinity). *)
Definition route_forecast (location : string) (days : option qs_value)
    (w : World) : option (HttpResponse * World) :=
  match route_days days with
  | Finite z =>
      if exact_integer z then Some (respond (getForecast location z) w)
      else None
  | _ => None
  end.

(** [GET /api/weather/search/:query] *)
Definition route_search (query : string) : World → HttpResponse * World :=
  respond (searchLocations query).

(** ** Sequences of calls *)

(** The three public methods of the gateway. *)
Inductive op : Type :=
  | OpCurrent (location : string)
  | OpForecast (location : string) (days : Z)
  | OpSearch (query : string).

Definition run_op (o : op) : M jsval :=
  match o with
  | OpCurrent location => getCurrentWeather location
  | OpForecast location days => getForecast location days
  | OpSearch query => searchLocations query
  end.

(** The worlds a gateway can be in: freshly constructed, then any sequence
    of method calls, the clock moving forward between them. *)
Inductive reachable : World → Prop :=
  | reachable_new key duration t0 n :
      reachable (new_WeatherAPI key duration t0 n)
  | reachable_wait w t :
      reachable w → now w ≤ t → reachable (at_time t w)
  | reachable_call w o :
      reachable w → reachable (run_op o w).2.

(** The requests the three methods send. *)
Definition current_request (key location : string) : Request :=
  {| url := "http://api.weatherapi.com/v1/current.json";
     params := [("key", VStr key); ("q", VStr location); ("aqi", VStr "yes")] |}.

Definition forecast_request (key location : string) (days : Z) : Request :=
  {| url := "http://api.weatherapi.com/v1/forecast.json";
     params := [("key", VStr key); ("q", VStr location);
                ("days", VNum (inject_Z days)); ("aqi", VStr "yes")] |}.

Definition search_request (key query : string) : Request :=
  {| url := "http://api.weatherapi.com/v1/search.json";
     params := [("key", VStr key); ("q", VStr query)] |}.

(** The objects the two cached methods build from a payload [data]. *)
Definition location_fields (location : jsval) : list (string * jsval) :=
  [("name", field location "name"); ("region", field location "region");
   ("country", field location "country"); ("lat", field location "lat");
   ("lon", field location "lon")].

Definition weatherData_of (data : jsval) : jsval :=
  let location := field data "location" in
  let current := field data "current" in
  VObj [("location",
         VObj (location_fields location
               ++ [("localTime", field location "localtime")]));
        ("current",
         VObj [("tempC", field current "temp_c");
               ("tempF", field current "temp_f");
               ("condition", field (field current "condition") "text");
               ("windKph", field current "wind_kph");
               ("windDir", field current "wind_dir");
               ("humidity", field current "humidity");
               ("feelsLikeC", field current "feelslike_c");
               ("feelsLikeF", field current "feelslike_f");
               ("uv", field current "uv");
               ("airQuality", field current "air_quality")])].

Definition forecastData_of (data forecast : jsval) : jsval :=
  VObj [("location", VObj (location_fields (field data "location")));
        ("forecast", forecast)].

(** A computation that neither reads nor changes the world. *)
Definition pure {A} (m : M A) : Prop := ∃ r, ∀ w, m w = (r, w).

(** What the cache of a gateway holds: under a key of [getCurrentWeather] a
    snapshot whose location has the six properties, under a key of
    [getForecast] a forecast whose location has the five. *)
Definition current_shaped (v : jsval) : Prop :=
  keys (field v "location")
  = ["name"; "region"; "country"; "lat"; "lon"; "localTime"].

Definition forecast_shaped (v : jsval) : Prop :=
  keys (field v "location") = ["name"; "region"; "country"; "lat"; "lon"].

Definition cache_inv (c : WeatherCache.t) : Prop :=
  ∀ k e, WeatherCache.cache c !! k = Some e →
    ((∃ L, k = current_key L) ∧ current_shaped (WeatherCache.data e))
    ∨ ((∃ L d, k = forecast_key L d) ∧ forecast_shaped (WeatherCache.data e)).

(** Every character of the string satisfies [P]. *)
Fixpoint all_chars (P : ascii → bool) (s : string) : bool :=
  match s with
  | EmptyString => true
  | String a s' => P a && all_chars P s'
  end.

(** The characters of a printed integer. *)
Definition is_digit_or_dash (a : ascii) : bool :=
  let n := nat_of_ascii a in
  ((48 <=? n)%nat && (n <=? 57)%nat) || (n =? 45)%nat.

(** The three ways a cached method ends, for the key it looks up, the
    request it sends on a miss and the shape of what it builds: the value
    found in the cache; an exception after the request; the value built
    from the reply, stored under the key at the time the reply came. *)
Inductive cached_outcome (key : string) (sent : Request)
    (shaped : jsval → Prop) (w : World) : completion jsval * World → Prop :=
  | outcome_hit v c :
      WeatherCache.get (now w) key (cache w) = (v, c) → truthy v = true →
      cached_outcome key sent shaped w (Normal v, with_cache c w)
  | outcome_throw v c e :
      WeatherCache.get (now w) key (cache w) = (v, c) → truthy v = false →
      cached_outcome key sent shaped w
        (Throw e, with_request sent (with_cache c w))
  | outcome_fetched v c snap :
      WeatherCache.get (now w) key (cache w) = (v, c) → truthy v = false →
      shaped snap →
      let w1 := with_request sent (with_cache c w) in
      cached_outcome key sent shaped w
        (Normal snap, with_cache (WeatherCache.set (now w1) key snap c) w1).

(** ** Sample payloads and providers *)

Definition sample_current : jsval :=
  VObj [("location",
         VObj [("name", VStr "Berlin"); ("region", VStr "Berlin");
               ("country", VStr "Germany"); ("lat", VNum (1313 # 25));
               ("lon", VNum (67 # 5)); ("tz_id", VStr "Europe/Berlin");
               ("localtime", VStr "2024-05-01 12:00")]);
        ("current",
         VObj [("temp_c", VNum (37 # 2)); ("temp_f", VNum (653 # 10));
               ("condition",
                VObj [("text", VStr "Sunny"); ("icon", VStr "113.png");
                      ("code", VNum (1000 # 1))]);
               ("wind_kph", VNum (68 # 5)); ("wind_dir", VStr "NW");
               ("humidity", VNum (40 # 1)); ("feelslike_c", VNum (18 # 1));
               ("feelslike_f", VNum (322 # 5)); ("uv", VNum (5 # 1));
               ("air_quality",
                VObj [("co", VNum (2303 # 10)); ("no2", VNum (13 # 1));
                      ("o3", VNum (56 # 1)); ("so2", VNum (3 # 2));
                      ("pm2_5", VNum (8 # 1)); ("pm10", VNum (11 # 1));
                      ("us-epa-index", VNum (1 # 1));
                      ("gb-defra-index", VNum (1 # 1))])])].

Definition sample_hour (time : string) (temp : Q) : jsval :=
  VObj [("time", VStr time); ("temp_c", VNum temp);
        ("condition", VObj [("text", VStr "Clear")]);
        ("wind_kph", VNum (9 # 1)); ("wind_dir", VStr "E");
        ("precip_mm", VNum (0 # 1)); ("humidity", VNum (55 # 1))].

Definition sample_forecast : jsval :=
  VObj [("location",
         VObj [("name", VStr "Tokyo"); ("region", VStr "Tokyo");
               ("country", VStr "Japan"); ("lat", VNum (3569 # 100));
               ("lon", VNum (13969 # 100));
               ("localtime", VStr "2024-05-01 19:00")]);
        ("forecast",
         VObj [("forecastday",
                VArr [VObj [("date", VStr "2024-05-01");
                            ("day",
                             VObj [("maxtemp_c", VNum (22 # 1));
                                   ("mintemp_c", VNum (14 # 1));
                                   ("avgtemp_c", VNum (18 # 1));
                                   ("maxwind_kph", VNum (20 # 1));
                                   ("totalprecip_mm", VNum (1 # 2));
                                   ("avghumidity", VNum (60 # 1));
                                   ("condition", VObj [("text", VStr "Cloudy")])]);
                            ("astro",
                             VObj [("sunrise", VStr "04:50 AM");
                                   ("sunset", VStr "06:28 PM")]);
                            ("hour",
                             VArr [sample_hour "2024-05-01 00:00" (15 # 1);
                                   sample_hour "2024-05-01 01:00" (29 # 2)])]])])].

(** A provider that answers every request after 20 ms with one payload,
    and one that rejects every request with status 401. *)
Definition net_always (data : jsval) : nat → Request → Reply :=
  λ _ _, {| latency := 20; result := inl data |}.

Definition net_401 : nat → Request → Reply :=
  λ _ _, {| latency := 20;
            result := inr (Some (401, VObj [("error",
                             VObj [("message", VStr "Invalid key")])])) |}.

(** ** The values the callbacks build *)

(** The object of the callback of [day.hour.map(...)], and when the callback
    returns: [hour] and [hour.condition] can be read from. *)
Definition hourly_value (hour : jsval) : jsval :=
  VObj [("time", field hour "time"); ("tempC", field hour "temp_c");
        ("condition", field (field hour "condition") "text");
        ("windKph", field hour "wind_kph"); ("windDir", field hour "wind_dir");
        ("precipitation", field hour "precip_mm");
        ("humidity", field hour "humidity")].

Definition hourly_ok (hour : jsval) : bool :=
  negb (nullish hour) && negb (nullish (field hour "condition")).

(** The items of an array; [None] for a value [.map] cannot be called on. *)
Definition array_items (v : jsval) : option (list jsval) :=
  match v with
  | VArr items => Some items
  | _ => None
  end.

(** The object of the callback of [forecastday.map(...)], and when the
    callback returns. *)
Definition daily_value (day : jsval) : jsval :=
  let d := field day "day" in
  let astro := field day "astro" in
  VObj [("date", field day "date"); ("maxTempC", field d "maxtemp_c");
        ("minTempC", field d "mintemp_c"); ("avgTempC", field d "avgtemp_c");
        ("maxWindKph", field d "maxwind_kph");
        ("totalPrecipMm", field d "totalprecip_mm");
        ("avgHumidity", field d "avghumidity");
        ("condition", field (field d "condition") "text");
        ("sunrise", field astro "sunrise"); ("sunset", field astro "sunset");
        ("hourly",
         VArr (map hourly_value (default [] (array_items (field day "hour")))))].

Definition daily_ok (day : jsval) : bool :=
  negb (nullish day) && negb (nullish (field day "day"))
  && negb (nullish (field (field day "day") "condition"))
  && negb (nullish (field day "astro"))
  && match array_items (field day "hour") with
     | Some hours => forallb hourly_ok hours
     | None => false
     end.

(** The forecast built from a payload, and when it is built. *)
Definition forecast_value (data : jsval) : jsval :=
  forecastData_of data
    (VArr (map daily_value
             (default [] (array_items
                            (field (field data "forecast") "forecastday"))))).

Definition forecast_ok (data : jsval) : bool :=
  negb (nullish data) && negb (nullish (field data "location"))
  && negb (nullish (field data "forecast"))
  && match array_items (field (field data "forecast") "forecastday") with
     | Some days => forallb daily_ok days
     | None => false
     end.

(** When [getCurrentWeather] builds its snapshot from a payload. *)
Definition current_ok (data : jsval) : bool :=
  negb (nullish data) && negb (nullish (field data "location"))
  && negb (nullish (field data "current"))
  && negb (nullish (field (field data "current") "condition")).

(** The object of the callback of [searchLocations]. *)
Definition location_value (location : jsval) : jsval :=
  VObj (location_fields location).

Definition search_value (data : jsval) : completion jsval :=
  match array_items data with
  | Some items =>
      if forallb (λ l, negb (nullish l)) items
      then Normal (VArr (map location_value items))
      else Throw TypeError
  | None => Throw TypeError
  end.

(** ** Calls, their keys and their requests *)

(** The cache key a call looks up ([searchLocations] has none) and the
    request it sends when it asks the provider. *)
Definition op_key (o : op) : option string :=
  match o with
  | OpCurrent location => Some (current_key location)
  | OpForecast location days => Some (forecast_key location days)
  | OpSearch _ => None
  end.

Definition op_request (key : string) (o : op) : Request :=
  match o with
  | OpCurrent location => current_request key location
  | OpForecast location days => forecast_request key location days
  | OpSearch query => search_request key query
  end.

(** What a cached call builds from a payload. *)
Definition op_value (o : op) (data : jsval) : jsval :=
  match o with
  | OpCurrent _ => weatherData_of data
  | OpForecast _ _ => forecast_value data
  | OpSearch _ => VUndefined
  end.

(** A sequence of calls, each made when the clock shows the given time. *)
Fixpoint run_calls (calls : list (Z * op)) (w : World) : World :=
  match calls with
  | [] => w
  | (t, o) :: rest => run_calls rest (run_op o (at_time t w)).2
  end.

(** The entry [e] under key [k] is what some call with that key built from
    a payload the provider sent in reply to that call's request, and it was
    not written after the current time. *)
Definition entry_from_provider (w : World) (k : string)
    (e : WeatherCache.CacheEntry) : Prop :=
  WeatherCache.timestamp e ≤ now w ∧
  ∃ n o data,
    op_key o = Some k ∧
    log w !! n = Some (op_request (apiKey w) o) ∧
    result (net w n (op_request (apiKey w) o)) = inl data ∧
    WeatherCache.data e = op_value o data.

Definition cache_from_provider (w : World) : Prop :=
  ∀ k e, WeatherCache.cache (cache w) !! k = Some e → entry_from_provider w k e.

(** The bytes that are ASCII characters. *)
Definition is_ascii (a : ascii) : bool := (nat_of_ascii a <? 128)%nat.

(** The decimal digits. *)
Definition is_digit (a : ascii) : bool :=
  let n := nat_of_ascii a in (48 <=? n)%nat && (n <=? 57)%nat.


(** * Properties of the expiring cache *)

Section CacheFacts.
Import WeatherCache.

Implicit Types (c : WeatherCache.t) (K : string) (V : jsval) (T t D : Z).

Lemma get_absent now K c :
  cache c !! K = None → get now K c = (VNull, c).
Proof. intros H. unfold get. by rewrite H. Qed.

Lemma get_fresh now K c e :
  cache c !! K = Some e → now - timestamp e < cacheDuration c →
  get now K c = (data e, c).
Proof.
  intros H Hlt. unfold get. rewrite H.
  by apply Z.ltb_lt in Hlt as ->.
Qed.

Lemma get_stale now K c e :
  cache c !! K = Some e → cacheDuration c ≤ now - timestamp e →
  get now K c = (VNull, mk (delete K (cache c)) (cacheDuration c)).
Proof.
  intros H Hge. unfold get. rewrite H.
  by apply Z.ltb_ge in Hge as ->.
Qed.

Lemma set_lookup now K V c :
  cache (set now K V c) !! K = Some (mkEntry V now).
Proof. apply lookup_insert_eq. Qed.

Lemma set_lookup_ne now K K' V c :
  K ≠ K' → cache (set now K V c) !! K' = cache c !! K'.
Proof. intros. by apply lookup_insert_ne. Qed.

Lemma get_lookup_ne now K K' c :
  K ≠ K' → cache (get now K c).2 !! K' = cache c !! K'.
Proof.
  intros. unfold get. destruct (cache c !! K) as [e|]; [|done].
  destruct (_ <? _); [done|]. by apply lookup_delete_ne.
Qed.

Lemma get_duration now K c : cacheDuration (get now K c).2 = cacheDuration c.
Proof.
  unfold get. destruct (cache c !! K) as [e|]; [|done].
  by destruct (_ <? _).
Qed.

(** After [get], the entry of the key is the one it had or is gone, and
    [get] adds no key. *)
Lemma get_subseteq now K c : cache (get now K c).2 ⊆ cache c.
Proof.
  unfold get. destruct (cache c !! K) as [e|]; [|done].
  destruct (_ <? _); [done|]. apply delete_subseteq.
Qed.

(** C1: a value set at time [T] is returned unchanged by [get] at every
    time in [[T, T+D)] and [get] returns [null] at every time from [T+D]
    on; [get] removes an entry it finds with age at least [D], returns
    [null] for a key that has no entry, and has no other outcome. *)
Theorem C1_cache_freshness D K V T t (m : gmap string CacheEntry) :
  T ≤ t →
  let c1 := set T K V (mk m D) in
  (t < T + D → get t K c1 = (V, c1)) ∧
  (T + D ≤ t → get t K c1 = (VNull, mk (delete K (cache c1)) D)) ∧
  (∀ c e now, cache c !! K = Some e → cacheDuration c ≤ now - timestamp e →
     get now K c = (VNull, mk (delete K (cache c)) (cacheDuration c))) ∧
  (∀ c now, cache c !! K = None → get now K c = (VNull, c)) ∧
  (∀ c now, get now K c = (VNull, c)
          ∨ get now K c = (VNull, mk (delete K (cache c)) (cacheDuration c))
          ∨ ∃ e, cache c !! K = Some e ∧ get now K c = (data e, c)).
Proof.
  intros HT c1. repeat split.
  - intros Hlt. apply (get_fresh t K c1 (mkEntry V T)).
    + apply set_lookup.
    + simpl. lia.
  - intros Hge. apply (get_stale t K c1 (mkEntry V T)).
    + apply set_lookup.
    + simpl. lia.
  - intros c e now. apply get_stale.
  - intros c now. apply get_absent.
  - intros c now. unfold get. destruct (cache c !! K) as [e|] eqn:He.
    + destruct (_ <? _); eauto.
    + by left.
Qed.

Lemma C1_cache_freshness_witness :
  get 1099 "current_Paris"
      (set 100 "current_Paris" (VStr "sunny") (new 1000))
    = (VStr "sunny", set 100 "current_Paris" (VStr "sunny") (new 1000))
  ∧ get 1100 "current_Paris"
      (set 100 "current_Paris" (VStr "sunny") (new 1000))
    = (VNull, new 1000).
Proof.
  split.
  - apply (C1_cache_freshness 1000 "current_Paris" (VStr "sunny") 100 1099 ∅);
      lia.
  - pose proof (C1_cache_freshness 1000 "current_Paris" (VStr "sunny")
                  100 1100 ∅) as H.
    destruct H as (_ & H & _); [lia|].
    etrans; [exact (H ltac:(lia))|]. by vm_compute.
Defined.

(** C2: a second [set] on a key replaces the entry whatever its age and
    starts a new window: after [set K V1] at [T1] and [set K V2] at
    [T2 > T1], [get K] returns [V2] at every time in [[T2, T2+D)]. *)
Theorem C2_overwrite_resets_clock D K V1 V2 T1 T2 t
    (m : gmap string CacheEntry) :
  T1 < T2 → T2 ≤ t < T2 + D →
  let c2 := set T2 K V2 (set T1 K V1 (mk m D)) in
  get t K c2 = (V2, c2) ∧
  (V1 ≠ V2 → (get t K c2).1 ≠ V1) ∧
  cache c2 !! K = Some (mkEntry V2 T2) ∧
  c2 = set T2 K V2 (mk m D).
Proof.
  intros HT Ht c2.
  assert (Hget : get t K c2 = (V2, c2)).
  { apply (get_fresh t K c2 (mkEntry V2 T2)).
    - apply set_lookup.
    - simpl. lia. }
  repeat split.
  - exact Hget.
  - intros Hne. rewrite Hget. simpl. congruence.
  - apply set_lookup.
  - unfold c2, set. simpl. f_equal. apply insert_insert_eq.
Qed.

Lemma C2_overwrite_resets_clock_witness :
  get 700 "k" (set 500 "k" (VStr "new") (set 0 "k" (VStr "old") (new 1000)))
  = (VStr "new",
     set 500 "k" (VStr "new") (set 0 "k" (VStr "old") (new 1000))).
Proof.
  apply (C2_overwrite_resets_clock 1000 "k" (VStr "old") (VStr "new")
           0 500 700 ∅); lia.
Defined.

End CacheFacts.

(** * Properties of the gateway *)

(** ** Running the monad *)

Lemma bind_normal {A B} (m : M A) (k : A → M B) w a w' :
  m w = (Normal a, w') → (m ≫= k) w = k a w'.
Proof. intros H. unfold mbind, M_bind, bind. by rewrite H. Qed.

Lemma bind_throw {A B} (m : M A) (k : A → M B) w e w' :
  m w = (Throw e, w') → (m ≫= k) w = (Throw e, w').
Proof. intros H. unfold mbind, M_bind, bind. by rewrite H. Qed.

Lemma get_prop_normal v k w :
  nullish v = false → get_prop v k w = (Normal (field v k), w).
Proof. intros H. unfold get_prop. by rewrite H. Qed.

Lemma get_prop_throw v k w :
  nullish v = true → get_prop v k w = (Throw TypeError, w).
Proof. intros H. unfold get_prop. by rewrite H. Qed.

Lemma path1_normal v k w :
  nullish v = false → path v [k] w = (Normal (field v k), w).
Proof.
  intros H. cbn [path]. by rewrite (bind_normal _ _ _ _ _ (get_prop_normal v k w H)).
Qed.

Lemma path2_normal v k1 k2 w :
  nullish v = false → nullish (field v k1) = false →
  path v [k1; k2] w = (Normal (field (field v k1) k2), w).
Proof.
  intros H1 H2. cbn [path].
  rewrite (bind_normal _ _ _ _ _ (get_prop_normal v k1 w H1)).
  by apply path1_normal.
Qed.

Lemma path3_normal v k1 k2 k3 w :
  nullish v = false → nullish (field v k1) = false →
  nullish (field (field v k1) k2) = false →
  path v [k1; k2; k3] w = (Normal (field (field (field v k1) k2) k3), w).
Proof.
  intros H1 H2 H3. cbn [path].
  rewrite (bind_normal _ _ _ _ _ (get_prop_normal v k1 w H1)).
  by apply path2_normal.
Qed.

(** ** Computations that leave the world alone *)

Lemma pure_ret {A} (a : A) : pure (mret a).
Proof. by exists (Normal a). Qed.

Lemma pure_throw {A} e : pure (@throw A e).
Proof. by exists (Throw e). Qed.

Lemma pure_bind {A B} (m : M A) (k : A → M B) :
  pure m → (∀ a, pure (k a)) → pure (m ≫= k).
Proof.
  intros [[a|e] Hm] Hk.
  - destruct (Hk a) as [r Hr]. exists r. intros w.
    by rewrite (bind_normal _ _ _ _ _ (Hm w)).
  - exists (Throw e). intros w. by rewrite (bind_throw _ _ _ _ _ (Hm w)).
Qed.

Lemma pure_get_prop v k : pure (get_prop v k).
Proof. unfold get_prop. destruct (nullish v); [apply pure_throw|apply pure_ret]. Qed.

Lemma pure_path v ks : pure (path v ks).
Proof.
  revert v. induction ks as [|k ks IH]; intros v; cbn [path].
  - apply pure_ret.
  - apply pure_bind; [apply pure_get_prop|done].
Qed.

Lemma pure_mapM {A B} (f : A → M B) l : (∀ a, pure (f a)) → pure (mapM f l).
Proof.
  intros Hf. induction l as [|a l IH]; cbn [mapM].
  - apply pure_ret.
  - apply pure_bind; [done|]. intros b.
    apply pure_bind; [done|]. intros bs. apply pure_ret.
Qed.

Lemma pure_js_map f v : (∀ a, pure (f a)) → pure (js_map f v).
Proof.
  intros Hf. destruct v; try apply pure_throw. cbn [js_map].
  apply pure_bind; [by apply pure_mapM|]. intros. apply pure_ret.
Qed.

Ltac pure_steps :=
  repeat (apply pure_bind; [first [apply pure_path | assumption]|intros ?]);
  try apply pure_ret.

Lemma pure_hourly_of hour : pure (hourly_of hour).
Proof. unfold hourly_of. pure_steps. Qed.

Lemma pure_daily_of day : pure (daily_of day).
Proof.
  unfold daily_of.
  do 11 (apply pure_bind; [apply pure_path|intros ?]).
  apply pure_bind; [apply pure_js_map, pure_hourly_of|intros ?].
  apply pure_ret.
Qed.

Lemma pure_location_of location : pure (location_of location).
Proof. unfold location_of. pure_steps. Qed.

(** ** What each method does, case by case *)

Lemma reply_to_with_cache req c w : reply_to req (with_cache c w) = reply_to req w.
Proof. reflexivity. Qed.

Lemma getCurrentWeather_hit L w v c :
  WeatherCache.get (now w) (current_key L) (cache w) = (v, c) →
  truthy v = true →
  getCurrentWeather L w = (Normal v, with_cache c w).
Proof.
  intros Hget Hv. unfold getCurrentWeather.
  erewrite bind_normal; [|unfold cache_get; by rewrite Hget].
  by rewrite Hv.
Qed.

Lemma getCurrentWeather_miss L w v c :
  WeatherCache.get (now w) (current_key L) (cache w) = (v, c) →
  truthy v = false →
  let req := current_request (apiKey w) L in
  let w1 := with_request req (with_cache c w) in
  getCurrentWeather L w =
    match result (reply_to req w) with
    | inr resp => (Throw (AxiosError resp), w1)
    | inl data =>
        if nullish data || nullish (field data "location")
           || nullish (field data "current")
           || nullish (field (field data "current") "condition")
        then (Throw TypeError, w1)
        else (Normal (weatherData_of data),
              with_cache (WeatherCache.set (now w1) (current_key L)
                            (weatherData_of data) c) w1)
    end.
Proof.
  intros Hget Hv req w1. unfold getCurrentWeather.
  erewrite bind_normal; [|unfold cache_get; by rewrite Hget].
  rewrite Hv. erewrite bind_normal; [|reflexivity]. cbn beta.
  assert (Hax : axios_get (baseUrl +:+ "/current.json")
            [("key", VStr (apiKey (with_cache c w))); ("q", VStr L);
             ("aqi", VStr "yes")] (with_cache c w)
          = match result (reply_to req w) with
            | inl d => (Normal d, w1)
            | inr resp => (Throw (AxiosError resp), w1)
            end) by reflexivity.
  destruct (result (reply_to req w)) as [data|resp].
  2: { by erewrite bind_throw. }
  erewrite bind_normal; [|exact Hax]. clear Hax.
  destruct (nullish data) eqn:E1.
  { by erewrite bind_throw; [|cbn [path]; erewrite bind_throw; [|by apply get_prop_throw]]. }
  destruct (nullish (field data "location")) eqn:E2.
  { erewrite bind_throw; [done|]. cbn [path].
    erewrite bind_normal; [|by apply get_prop_normal].
    erewrite bind_throw; [done|by apply get_prop_throw]. }
  do 6 (erewrite bind_normal; [|by apply path2_normal]).
  destruct (nullish (field data "current")) eqn:E3.
  { erewrite bind_throw; [done|]. cbn [path].
    erewrite bind_normal; [|by apply get_prop_normal].
    erewrite bind_throw; [done|by apply get_prop_throw]. }
  do 2 (erewrite bind_normal; [|by apply path2_normal]).
  destruct (nullish (field (field data "current") "condition")) eqn:E4.
  { erewrite bind_throw; [done|]. cbn [path].
    do 2 (erewrite bind_normal; [|by apply get_prop_normal]).
    erewrite bind_throw; [done|by apply get_prop_throw]. }
  erewrite bind_normal; [|by apply path3_normal].
  do 7 (erewrite bind_normal; [|by apply path2_normal]).
  reflexivity.
Qed.

Lemma getForecast_hit L d w v c :
  WeatherCache.get (now w) (forecast_key L d) (cache w) = (v, c) →
  truthy v = true →
  getForecast L d w = (Normal v, with_cache c w).
Proof.
  intros Hget Hv. unfold getForecast.
  erewrite bind_normal; [|unfold cache_get; by rewrite Hget].
  by rewrite Hv.
Qed.

Lemma getForecast_miss L d w v c :
  WeatherCache.get (now w) (forecast_key L d) (cache w) = (v, c) →
  truthy v = false →
  let req := forecast_request (apiKey w) L d in
  let w1 := with_request req (with_cache c w) in
  match result (reply_to req w) with
  | inr resp => getForecast L d w = (Throw (AxiosError resp), w1)
  | inl data =>
      (∃ e, getForecast L d w = (Throw e, w1))
      ∨ (∃ forecast,
           getForecast L d w =
             (Normal (forecastData_of data forecast),
              with_cache (WeatherCache.set (now w1) (forecast_key L d)
                            (forecastData_of data forecast) c) w1))
  end.
Proof.
  intros Hget Hv req w1. unfold getForecast.
  erewrite bind_normal; [|unfold cache_get; by rewrite Hget].
  rewrite Hv. erewrite bind_normal; [|reflexivity]. cbn beta.
  assert (Hax : axios_get (baseUrl +:+ "/forecast.json")
            [("key", VStr (apiKey (with_cache c w))); ("q", VStr L);
             ("days", VNum (inject_Z d)); ("aqi", VStr "yes")] (with_cache c w)
          = match result (reply_to req w) with
            | inl data => (Normal data, w1)
            | inr resp => (Throw (AxiosError resp), w1)
            end) by reflexivity.
  destruct (result (reply_to req w)) as [data|resp].
  2: { by erewrite bind_throw. }
  erewrite bind_normal; [|exact Hax]. clear Hax.
  destruct (nullish data) eqn:E1.
  { left. exists TypeError. erewrite bind_throw; [done|]. cbn [path].
    erewrite bind_throw; [done|by apply get_prop_throw]. }
  destruct (nullish (field data "location")) eqn:E2.
  { left. exists TypeError. erewrite bind_throw; [done|]. cbn [path].
    erewrite bind_normal; [|by apply get_prop_normal].
    erewrite bind_throw; [done|by apply get_prop_throw]. }
  do 5 (erewrite bind_normal; [|by apply path2_normal]).
  destruct (pure_path data ["forecast"; "forecastday"]) as [[days|e] Hdays].
  2: { left. exists e. by erewrite bind_throw. }
  erewrite bind_normal; [|apply Hdays].
  destruct (pure_js_map daily_of days pure_daily_of) as [[forecast|e] Hfc].
  2: { left. exists e. by erewrite bind_throw. }
  erewrite bind_normal; [|apply Hfc].
  right. exists forecast. reflexivity.
Qed.

Lemma searchLocations_run query w :
  let req := search_request (apiKey w) query in
  ∃ r : jsval → completion jsval,
    (∀ data w', js_map location_of data w' = (r data, w')) ∧
    searchLocations query w =
      (match result (reply_to req w) with
       | inr resp => Throw (AxiosError resp)
       | inl data => r data
       end, with_request req w).
Proof.
  intros req.
  exists (λ data, (js_map location_of data w).1). split.
  - intros data w'.
    destruct (pure_js_map location_of data pure_location_of) as [r Hr].
    by rewrite !Hr.
  - unfold searchLocations. erewrite bind_normal; [|reflexivity]. cbn beta.
    assert (Hax : axios_get (baseUrl +:+ "/search.json")
              [("key", VStr (apiKey w)); ("q", VStr query)] w
            = match result (reply_to req w) with
              | inl data => (Normal data, with_request req w)
              | inr resp => (Throw (AxiosError resp), with_request req w)
              end) by reflexivity.
    destruct (result (reply_to req w)) as [data|resp].
    + erewrite bind_normal; [|exact Hax].
      destruct (pure_js_map location_of data pure_location_of) as [r Hr].
      by rewrite !Hr.
    + by erewrite bind_throw.
Qed.

(** ** Cache hits, search and the field mapping *)

(** After a successful [getCurrentWeather], the cache holds the returned
    value under the key of the call, and that value is an object. *)
Lemma getCurrentWeather_stored L w v w1 :
  getCurrentWeather L w = (Normal v, w1) →
  truthy v = true ∧
  ∃ ts, WeatherCache.cache (cache w1) !! current_key L
        = Some (WeatherCache.mkEntry v ts).
Proof.
  intros Hrun.
  destruct (WeatherCache.get (now w) (current_key L) (cache w)) as [v0 c] eqn:Hget.
  destruct (truthy v0) eqn:Hv0.
  - rewrite (getCurrentWeather_hit _ _ _ _ Hget Hv0) in Hrun.
    injection Hrun as -> <-. split; [done|].
    unfold WeatherCache.get in Hget.
    destruct (WeatherCache.cache (cache w) !! current_key L) as [[d ts]|] eqn:He.
    + cbn [WeatherCache.timestamp WeatherCache.data] in Hget.
      destruct (_ <? _); injection Hget as <- <-; [|done].
      by exists ts.
    + by injection Hget as <- <-.
  - rewrite (getCurrentWeather_miss _ _ _ _ Hget Hv0) in Hrun.
    destruct (result _) as [data|resp]; [|done].
    destruct (_ || _); [done|].
    injection Hrun as <- <-. split; [done|].
    eexists. apply lookup_insert_eq.
Qed.

(** C4: after a successful [getCurrentWeather(L)] the cache holds the
    returned snapshot, and a second call at any time within the freshness
    window of that entry returns the same value, sends no request and leaves
    the world as it was. *)
Theorem C4_hit_avoids_upstream L w v w1 :
  getCurrentWeather L w = (Normal v, w1) →
  ∃ ts,
    WeatherCache.cache (cache w1) !! current_key L
      = Some (WeatherCache.mkEntry v ts) ∧
    ∀ t, ts ≤ t < ts + WeatherCache.cacheDuration (cache w1) →
      getCurrentWeather L (at_time t w1) = (Normal v, at_time t w1) ∧
      log (getCurrentWeather L (at_time t w1)).2 = log w1.
Proof.
  intros Hrun.
  destruct (getCurrentWeather_stored _ _ _ _ Hrun) as [Hv [ts Hts]].
  exists ts. split; [done|]. intros t Ht.
  assert (Hhit : getCurrentWeather L (at_time t w1) = (Normal v, at_time t w1)).
  { assert (Hget : WeatherCache.get (now (at_time t w1)) (current_key L)
                     (cache (at_time t w1)) = (v, cache w1)).
    { apply (get_fresh _ _ _ _ Hts). simpl. lia. }
    rewrite (getCurrentWeather_hit _ _ _ _ Hget Hv).
    by destruct w1. }
  by rewrite Hhit.
Qed.

Lemma C4_hit_avoids_upstream_witness :
  let w := new_WeatherAPI "k" 100 0 (net_always sample_current) in
  let w1 := (getCurrentWeather "Berlin" w).2 in
  getCurrentWeather "Berlin" (at_time 70 w1)
  = (Normal (weatherData_of sample_current), at_time 70 w1)
  ∧ log (getCurrentWeather "Berlin" (at_time 70 w1)).2
    = [current_request "k" "Berlin"].
Proof.
  intros w w1.
  destruct (C4_hit_avoids_upstream "Berlin" w
              (weatherData_of sample_current) w1 eq_refl)
    as (ts & Hts & Hwin).
  assert (Hts' : ts = 20).
  { vm_compute in Hts. by injection Hts. }
  apply (Hwin 70). rewrite Hts'.
  change (WeatherCache.cacheDuration (cache w1)) with 100. lia.
Defined.

(** C5: every [searchLocations(Q)] sends one request to the provider, so
    two calls in a row send two; the cache is left as it was, and the
    outcome of the call does not depend on what the cache holds. *)
Theorem C5_search_never_cached q w :
  let req := search_request (apiKey w) q in
  let w1 := (searchLocations q w).2 in
  log w1 = log w ++ [req] ∧
  cache w1 = cache w ∧
  (∀ t, log (searchLocations q (at_time t w1)).2 = log w ++ [req; req]) ∧
  (∀ t, cache (searchLocations q (at_time t w1)).2 = cache w) ∧
  (∀ c, searchLocations q (with_cache c w)
        = ((searchLocations q w).1, with_cache c w1)).
Proof.
  intros req w1.
  destruct (searchLocations_run q w) as (r & Hr & Hrun).
  assert (Hw1 : w1 = with_request req w) by (unfold w1; by rewrite Hrun).
  repeat split.
  - by rewrite Hw1.
  - by rewrite Hw1.
  - intros t. destruct (searchLocations_run q (at_time t w1)) as (r' & _ & ->).
    rewrite Hw1. cbn. by rewrite <-app_assoc.
  - intros t. destruct (searchLocations_run q (at_time t w1)) as (r' & _ & ->).
    by rewrite Hw1.
  - intros c. destruct (searchLocations_run q (with_cache c w)) as (r' & Hr' & ->).
    rewrite Hrun, Hw1. cbn [fst]. f_equal.
    change (reply_to _ (with_cache c w)) with (reply_to req w). fold req.
    destruct (result (reply_to req w)) as [data|resp]; [|done].
    pose proof (Hr data w) as H1. pose proof (Hr' data w) as H2. congruence.
Qed.

(** C6: on a cache miss answered with the payload [data], the snapshot of
    [getCurrentWeather] is the payload's fields under their new names, each
    value as the provider sent it; it is produced whenever [data], its
    [location], its [current] and the [condition] of the latter are
    objects. *)
Theorem C6_field_mapping L w data :
  truthy (WeatherCache.get (now w) (current_key L) (cache w)).1 = false →
  result (reply_to (current_request (apiKey w) L) w) = inl data →
  let location := field data "location" in
  let current := field data "current" in
  let snapshot :=
    VObj [("location",
           VObj [("name", field location "name");
                 ("region", field location "region");
                 ("country", field location "country");
                 ("lat", field location "lat");
                 ("lon", field location "lon");
                 ("localTime", field location "localtime")]);
          ("current",
           VObj [("tempC", field current "temp_c");
                 ("tempF", field current "temp_f");
                 ("condition", field (field current "condition") "text");
                 ("windKph", field current "wind_kph");
                 ("windDir", field current "wind_dir");
                 ("humidity", field current "humidity");
                 ("feelsLikeC", field current "feelslike_c");
                 ("feelsLikeF", field current "feelslike_f");
                 ("uv", field current "uv");
                 ("airQuality", field current "air_quality")])] in
  (nullish data = false → nullish location = false →
   nullish current = false → nullish (field current "condition") = false →
   (getCurrentWeather L w).1 = Normal snapshot) ∧
  (∀ v w1, getCurrentWeather L w = (Normal v, w1) → v = snapshot).
Proof.
  intros Hmiss Hreply location current snapshot.
  destruct (WeatherCache.get (now w) (current_key L) (cache w)) as [v0 c] eqn:Hget.
  cbn [fst] in Hmiss.
  pose proof (getCurrentWeather_miss _ _ _ _ Hget Hmiss) as Hrun.
  cbv zeta in Hrun. rewrite Hreply in Hrun. split.
  - intros E1 E2 E3 E4. rewrite Hrun.
    fold location current. by rewrite E1, E2, E3, E4.
  - intros v w1 Hv. rewrite Hrun in Hv.
    destruct (_ || _); [done|]. by injection Hv as <- _.
Qed.

Lemma C6_field_mapping_witness :
  let w := new_WeatherAPI "k" default_duration 0 (net_always sample_current) in
  (getCurrentWeather "Berlin" w).1 = Normal (weatherData_of sample_current)
  ∧ field (field (weatherData_of sample_current) "current") "tempC"
    = VNum (37 # 2).
Proof.
  intros w. split; [|reflexivity].
  apply (proj1 (C6_field_mapping "Berlin" w sample_current eq_refl eq_refl));
    reflexivity.
Defined.

(** ** Upstream failures *)

Lemma opt_field_field v k : opt_field v k = field v k.
Proof. unfold opt_field. by destruct v. Qed.

(** C7: when the lookup of [getForecast] or [getCurrentWeather] misses and
    the provider rejects the request, the method throws the provider's
    error as it is, after that one request; the cache gets no new entry
    (the entry of the key is the one it had, or gone); the route answers
    with the upstream status and [{error: message}], 500 standing in for a
    missing status and a generic text for a missing message. *)
Theorem C7_upstream_error_propagation L d w resp :
  let generic := VStr "An error occurred with the weather service" in
  (truthy (WeatherCache.get (now w) (forecast_key L d) (cache w)).1 = false →
   result (reply_to (forecast_request (apiKey w) L d) w) = inr resp →
   (getForecast L d w).1 = Throw (AxiosError resp) ∧
   log (getForecast L d w).2 = log w ++ [forecast_request (apiKey w) L d] ∧
   WeatherCache.cache (cache (getForecast L d w).2)
     ⊆ WeatherCache.cache (cache w) ∧
   (respond (getForecast L d) w).1 = errorHandler (AxiosError resp)) ∧
  (truthy (WeatherCache.get (now w) (current_key L) (cache w)).1 = false →
   result (reply_to (current_request (apiKey w) L) w) = inr resp →
   (getCurrentWeather L w).1 = Throw (AxiosError resp) ∧
   log (getCurrentWeather L w).2 = log w ++ [current_request (apiKey w) L] ∧
   WeatherCache.cache (cache (getCurrentWeather L w).2)
     ⊆ WeatherCache.cache (cache w) ∧
   (respond (getCurrentWeather L) w).1 = errorHandler (AxiosError resp)) ∧
  (∀ st data,
     resp = Some (st, data) →
     let message := field (field data "error") "message" in
     errorHandler (AxiosError resp)
     = {| status := if Z.eqb st 0 then 500 else st;
          body := VObj [("error", if truthy message then message else generic)] |}) ∧
  (resp = None →
     errorHandler (AxiosError resp)
     = {| status := 500; body := VObj [("error", generic)] |}).
Proof.
  intros generic. split; [|split; [|split]].
  - intros Hf Hrf.
    destruct (WeatherCache.get (now w) (forecast_key L d) (cache w))
      as [vf cf] eqn:Hgf.
    pose proof (getForecast_miss _ _ _ _ _ Hgf Hf) as Hrun.
    cbv zeta in Hrun. rewrite Hrf in Hrun.
    pose proof (get_subseteq (now w) (forecast_key L d) (cache w)) as Hsub.
    rewrite Hgf in Hsub. unfold respond. by rewrite Hrun.
  - intros Hc Hrc.
    destruct (WeatherCache.get (now w) (current_key L) (cache w))
      as [vc cc] eqn:Hgc.
    pose proof (getCurrentWeather_miss _ _ _ _ Hgc Hc) as Hrun.
    cbv zeta in Hrun. rewrite Hrc in Hrun.
    pose proof (get_subseteq (now w) (current_key L) (cache w)) as Hsub.
    rewrite Hgc in Hsub. unfold respond. by rewrite Hrun.
  - intros st data ->. cbv zeta. unfold errorHandler.
    by rewrite !opt_field_field.
  - by intros ->.
Qed.

Lemma C7_upstream_error_propagation_witness :
  let w := new_WeatherAPI "k" default_duration 0 net_401 in
  respond (getForecast "Tokyo" 3) w
  = ({| status := 401; body := VObj [("error", VStr "Invalid key")] |},
     with_request (forecast_request "k" "Tokyo" 3) w)
  ∧ WeatherCache.cache (cache (getForecast "Tokyo" 3 w).2) ⊆ ∅
  ∧ (getCurrentWeather "Tokyo" w).1
    = Throw (AxiosError (Some (401, VObj [("error",
                           VObj [("message", VStr "Invalid key")])]))).
Proof.
  intros w.
  pose proof (C7_upstream_error_propagation "Tokyo" 3 w
                (Some (401, VObj [("error",
                         VObj [("message", VStr "Invalid key")])])))
    as (Hf & Hc & Hst & _).
  destruct Hf as (_ & _ & Hsub & Hresp); [reflexivity|reflexivity|].
  destruct Hc as (Hthrow & _); [reflexivity|reflexivity|].
  split; [|split; [exact Hsub|exact Hthrow]].
  rewrite (surjective_pairing (respond (getForecast "Tokyo" 3) w)).
  rewrite Hresp, (Hst 401 _ eq_refl). reflexivity.
Defined.

(** ** Cache keys *)

Lemma all_chars_app P s1 s2 :
  all_chars P (s1 +:+ s2) = all_chars P s1 && all_chars P s2.
Proof.
  induction s1 as [|a s1 IH]; [done|].
  simpl. by rewrite IH, andb_assoc.
Qed.

Lemma pretty_N_char_digit x : is_digit_or_dash (pretty_N_char x) = true.
Proof. unfold pretty_N_char. by repeat case_match. Qed.

Lemma pretty_N_go_chars x s :
  all_chars is_digit_or_dash s = true →
  all_chars is_digit_or_dash (pretty_N_go x s) = true.
Proof.
  revert s. induction (N.lt_wf_0 x) as [x _ IH]; intros s Hs.
  assert (x = 0 ∨ 0 < x)%N as [->|Hx] by lia.
  - by rewrite pretty_N_go_0.
  - rewrite pretty_N_go_step by done. apply IH.
    + by apply N.div_lt.
    + cbn [all_chars]. by rewrite pretty_N_char_digit.
Qed.

Lemma pretty_N_chars (x : N) : all_chars is_digit_or_dash (pretty x) = true.
Proof.
  unfold pretty, pretty_N. case_decide; [done|]. by apply pretty_N_go_chars.
Qed.

Lemma pretty_Z_chars (d : Z) : all_chars is_digit_or_dash (pretty d) = true.
Proof.
  destruct d as [|p|p]; [done|apply pretty_N_chars|].
  change (pretty (Z.neg p)) with ("-" +:+ pretty (N.pos p)).
  cbn [String.append all_chars]. apply pretty_N_chars.
Qed.

(** A string is split in one way only around the last occurrence of a
    separator. *)
Lemma append_sep_inj (a : ascii) (P : ascii → bool) s1 s2 p1 p2 :
  P a = false → all_chars P p1 = true → all_chars P p2 = true →
  s1 +:+ String a p1 = s2 +:+ String a p2 → s1 = s2 ∧ p1 = p2.
Proof.
  intros Ha Hp1 Hp2. revert s2.
  induction s1 as [|b s1 IH]; intros [|b' s2] Heq; cbn [String.append] in Heq.
  - by injection Heq.
  - injection Heq as -> ->. rewrite all_chars_app in Hp1.
    cbn [all_chars] in Hp1. rewrite Ha in Hp1.
    by rewrite andb_false_l, andb_false_r in Hp1.
  - injection Heq as -> <-. rewrite all_chars_app in Hp2.
    cbn [all_chars] in Hp2. rewrite Ha in Hp2.
    by rewrite andb_false_l, andb_false_r in Hp2.
  - injection Heq as -> Heq. destruct (IH _ Heq) as [-> ->]. done.
Qed.

Lemma current_key_inj L1 L2 : current_key L1 = current_key L2 → L1 = L2.
Proof. unfold current_key. intros H. by simplify_eq/=. Qed.

Lemma forecast_key_inj L1 d1 L2 d2 :
  forecast_key L1 d1 = forecast_key L2 d2 → L1 = L2 ∧ d1 = d2.
Proof.
  unfold forecast_key. intros H.
  assert (H' : L1 +:+ String "_" (pretty d1) = L2 +:+ String "_" (pretty d2)).
  { cbn [String.append] in H. by simplify_eq. }
  apply (append_sep_inj _ is_digit_or_dash) in H' as [-> Hd];
    [|done|apply pretty_Z_chars..].
  split; [done|]. by apply (inj pretty).
Qed.

Lemma current_forecast_key_ne L1 L2 d : current_key L1 ≠ forecast_key L2 d.
Proof. unfold current_key, forecast_key. by intros [=]. Qed.

(** ** The outcomes of the two cached methods *)

Lemma getCurrentWeather_outcome L w :
  cached_outcome (current_key L) (current_request (apiKey w) L)
    current_shaped w (getCurrentWeather L w).
Proof.
  destruct (WeatherCache.get (now w) (current_key L) (cache w)) as [v c] eqn:Hget.
  destruct (truthy v) eqn:Hv.
  - rewrite (getCurrentWeather_hit _ _ _ _ Hget Hv). by constructor.
  - rewrite (getCurrentWeather_miss _ _ _ _ Hget Hv). cbv zeta.
    destruct (result _) as [data|resp]; [|by econstructor].
    destruct (_ || _); [by econstructor|].
    by apply (outcome_fetched _ _ _ _ v).
Qed.

Lemma getForecast_outcome L d w :
  cached_outcome (forecast_key L d) (forecast_request (apiKey w) L d)
    forecast_shaped w (getForecast L d w).
Proof.
  destruct (WeatherCache.get (now w) (forecast_key L d) (cache w)) as [v c] eqn:Hget.
  destruct (truthy v) eqn:Hv.
  - rewrite (getForecast_hit _ _ _ _ _ Hget Hv). by constructor.
  - pose proof (getForecast_miss _ _ _ _ _ Hget Hv) as Hrun. cbv zeta in Hrun.
    destruct (result _) as [data|resp].
    + destruct Hrun as [[e ->]|[fc ->]]; [by econstructor|].
      by apply (outcome_fetched _ _ _ _ v).
    + rewrite Hrun. by econstructor.
Qed.

Section Outcome.
Context {key : string} {sent : Request} {shaped : jsval → Prop}
        {w : World} {r : completion jsval * World}.
Hypothesis Hout : cached_outcome key sent shaped w r.

Lemma outcome_apiKey : apiKey r.2 = apiKey w.
Proof. by destruct Hout. Qed.

Lemma outcome_frame k :
  k ≠ key →
  WeatherCache.cache (cache r.2) !! k = WeatherCache.cache (cache w) !! k.
Proof.
  intros Hk.
  destruct Hout as [v c Hget _|v c e Hget _|v c snap Hget _ _ w1];
    cbn [snd cache with_cache with_request];
    pose proof (get_lookup_ne (now w) key k (cache w) (not_eq_sym Hk)) as Hne;
    rewrite Hget in Hne; cbn [snd] in Hne; [done|done|].
  by rewrite set_lookup_ne.
Qed.

Lemma outcome_stored v :
  r.1 = Normal v →
  ∃ ts, WeatherCache.cache (cache r.2) !! key = Some (WeatherCache.mkEntry v ts).
Proof.
  destruct Hout as [v' c Hget Hv|v' c e Hget _|v' c snap Hget _ Hs w1];
    cbn [fst snd cache with_cache]; intros [=]; subst.
  - unfold WeatherCache.get in Hget.
    destruct (WeatherCache.cache (cache w) !! key) as [[dt ts]|] eqn:He.
    + cbn [WeatherCache.timestamp WeatherCache.data] in Hget.
      destruct (_ <? _); injection Hget as <- <-; [|done].
      by exists ts.
    + by injection Hget as <- <-.
  - eexists. apply lookup_insert_eq.
Qed.

(** A lookup that finds nothing ends in a request. *)
Lemma outcome_miss_sends :
  WeatherCache.cache (cache w) !! key = None → log r.2 = log w ++ [sent].
Proof.
  intros Hnone.
  destruct Hout as [v c Hget Hv|v c e Hget _|v c snap Hget _ _ w1];
    [|done..].
  rewrite (get_absent _ _ _ Hnone) in Hget. by injection Hget as <- <-.
Qed.

Lemma outcome_inv :
  (∀ v, shaped v →
     ((∃ L, key = current_key L) ∧ current_shaped v)
     ∨ ((∃ L d, key = forecast_key L d) ∧ forecast_shaped v)) →
  cache_inv (cache w) → cache_inv (cache r.2).
Proof.
  intros Hshape Hinv.
  assert (Hsub : ∀ v c, WeatherCache.get (now w) key (cache w) = (v, c) →
                        cache_inv c).
  { intros v c Hget k e He. apply (Hinv k e).
    pose proof (get_subseteq (now w) key (cache w)) as Hs.
    rewrite Hget in Hs. by eapply lookup_weaken. }
  destruct Hout as [v c Hget _|v c e Hget _|v c snap Hget _ Hs w1];
    cbn [snd cache with_cache with_request]; [by eapply Hsub..|].
  intros k e He. unfold WeatherCache.set in He. cbn [WeatherCache.cache] in He.
  destruct (decide (key = k)) as [<-|Hne].
  - rewrite lookup_insert_eq in He. injection He as <-. by apply Hshape.
  - rewrite lookup_insert_ne in He by done. by eapply Hsub.
Qed.

(** A value found in a cache that satisfies the invariant, or fetched, has
    the shape of its key. *)
Lemma outcome_shaped v :
  (∀ e, WeatherCache.cache (cache w) !! key = Some e →
        shaped (WeatherCache.data e)) →
  r.1 = Normal v → shaped v.
Proof.
  intros Hfound.
  destruct Hout as [v' c Hget Hv|v' c e Hget _|v' c snap Hget _ Hs w1];
    cbn [fst]; intros [=]; subst; [|done].
  unfold WeatherCache.get in Hget.
  destruct (WeatherCache.cache (cache w) !! key) as [e|] eqn:He.
  - destruct (_ <? _); injection Hget as <- <-; [|done]. by apply Hfound.
  - by injection Hget as <- <-.
Qed.

End Outcome.

(** ** What reachable caches hold *)

Lemma reachable_inv w : reachable w → cache_inv (cache w).
Proof.
  induction 1 as [key duration t0 n|w t _ IH _|w o _ IH].
  - intros k e He. cbn in He. by rewrite lookup_empty in He.
  - exact IH.
  - destruct o as [L|L d|q]; cbn [run_op].
    + apply (outcome_inv (getCurrentWeather_outcome L w)); [|done].
      intros v Hv. left. eauto.
    + apply (outcome_inv (getForecast_outcome L d w)); [|done].
      intros v Hv. right. eauto.
    + destruct (searchLocations_run q w) as (r & _ & ->). exact IH.
Qed.

Lemma own_prop_None k (props : list (string * jsval)) :
  k ∉ props.*1 → own_prop k props = None.
Proof.
  induction props as [|[k' v] props IH]; [done|].
  cbn [own_prop fmap list_fmap fst]. intros Hk.
  apply not_elem_of_cons in Hk as [Hne Hk].
  destruct (String.eqb_spec k k'); [done|]. by apply IH.
Qed.

(** C9: the location of every forecast [getForecast] returns, fetched or
    found in the cache of a gateway, has the five properties [name],
    [region], [country], [lat] and [lon] and no [localTime], while the
    location of every snapshot [getCurrentWeather] returns has [localTime]
    as its sixth property. *)
Theorem C9_forecast_location_without_localTime L d w v :
  reachable w →
  (getForecast L d w).1 = Normal v →
  keys (field v "location") = ["name"; "region"; "country"; "lat"; "lon"] ∧
  field (field v "location") "localTime" = VUndefined ∧
  (∀ L' v', (getCurrentWeather L' w).1 = Normal v' →
     keys (field v' "location")
     = ["name"; "region"; "country"; "lat"; "lon"; "localTime"]).
Proof.
  intros Hreach Hv. apply reachable_inv in Hreach.
  assert (Hshape : forecast_shaped v).
  { apply (outcome_shaped (getForecast_outcome L d w)); [|done].
    intros e He. destruct (Hreach _ _ He) as [[[L' HL'] _]|[_ Hs]]; [|done].
    symmetry in HL'. by apply current_forecast_key_ne in HL'. }
  split; [exact Hshape|]. split.
  - unfold forecast_shaped in Hshape.
    destruct (field v "location") as [| | | | | |props]; try done.
    cbn [field keys] in *. rewrite own_prop_None; [done|].
    rewrite Hshape, !not_elem_of_cons.
    repeat split; try done. apply not_elem_of_nil.
  - intros L' v' Hv'.
    apply (outcome_shaped (getCurrentWeather_outcome L' w)); [|done].
    intros e He. destruct (Hreach _ _ He) as [[_ Hs]|[[L2 [d2 HL2]] _]]; [done|].
    by apply current_forecast_key_ne in HL2.
Qed.

Lemma C9_forecast_location_without_localTime_witness :
  let w := new_WeatherAPI "k" default_duration 0 (net_always sample_forecast) in
  keys (field (forecastData_of sample_forecast VUndefined) "location")
  = ["name"; "region"; "country"; "lat"; "lon"]
  ∧ field (field sample_forecast "location") "localtime"
    = VStr "2024-05-01 19:00"
  ∧ ∃ v, (getForecast "Tokyo" 3 w).1 = Normal v
         ∧ field (field v "location") "localTime" = VUndefined.
Proof.
  intros w. split; [reflexivity|]. split; [reflexivity|].
  eexists. split; [reflexivity|].
  eapply (C9_forecast_location_without_localTime "Tokyo" 3 w).
  - apply reachable_new.
  - reflexivity.
Defined.

(** * Further properties *)

(** ** The callbacks and [.map] *)

Lemma mapM_run {A B} (f : A → M B) (ok : A → bool) (g : A → B) e l w :
  (∀ a w', f a w' = (if ok a then Normal (g a) else Throw e, w')) →
  mapM f l w = (if forallb ok l then Normal (map g l) else Throw e, w).
Proof.
  intros Hf. induction l as [|a l IH]; [done|].
  cbn [mapM forallb map]. specialize (Hf a w).
  destruct (ok a).
  - erewrite bind_normal; [|exact Hf]. cbn [andb].
    destruct (forallb ok l).
    + erewrite bind_normal; [|exact IH]. done.
    + erewrite bind_throw; [|exact IH]. done.
  - erewrite bind_throw; [|exact Hf]. done.
Qed.

Lemma js_map_run f (ok : jsval → bool) (g : jsval → jsval) v w :
  (∀ a w', f a w' = (if ok a then Normal (g a) else Throw TypeError, w')) →
  js_map f v w
  = (match array_items v with
     | Some items =>
         if forallb ok items then Normal (VArr (map g items))
         else Throw TypeError
     | None => Throw TypeError
     end, w).
Proof.
  intros Hf. destruct v; try done. cbn [js_map array_items].
  pose proof (mapM_run f ok g TypeError items w Hf) as Hm.
  destruct (forallb ok items).
  - erewrite bind_normal; [|exact Hm]. done.
  - erewrite bind_throw; [|exact Hm]. done.
Qed.

Lemma path1_throw v k w :
  nullish v = true → path v [k] w = (Throw TypeError, w).
Proof.
  intros H. cbn [path]. by erewrite bind_throw; [|by apply get_prop_throw].
Qed.

Lemma path2_throw v k1 k2 w :
  nullish v = false → nullish (field v k1) = true →
  path v [k1; k2] w = (Throw TypeError, w).
Proof.
  intros H1 H2. cbn [path].
  erewrite bind_normal; [|by apply get_prop_normal].
  by apply path1_throw.
Qed.

Lemma path3_throw v k1 k2 k3 w :
  nullish v = false → nullish (field v k1) = false →
  nullish (field (field v k1) k2) = true →
  path v [k1; k2; k3] w = (Throw TypeError, w).
Proof.
  intros H1 H2 H3. cbn [path].
  erewrite bind_normal; [|by apply get_prop_normal].
  by apply path2_throw.
Qed.

Lemma hourly_of_run hour w :
  hourly_of hour w
  = (if hourly_ok hour then Normal (hourly_value hour) else Throw TypeError, w).
Proof.
  unfold hourly_of, hourly_ok.
  destruct (nullish hour) eqn:E1; cbn [negb andb].
  { by erewrite bind_throw; [|by apply path1_throw]. }
  do 2 (erewrite bind_normal; [|by apply path1_normal]).
  destruct (nullish (field hour "condition")) eqn:E2; cbn [negb].
  { by erewrite bind_throw; [|by apply path2_throw]. }
  erewrite bind_normal; [|by apply path2_normal].
  do 4 (erewrite bind_normal; [|by apply path1_normal]).
  reflexivity.
Qed.

Lemma daily_of_run day w :
  daily_of day w
  = (if daily_ok day then Normal (daily_value day) else Throw TypeError, w).
Proof.
  unfold daily_of, daily_ok.
  destruct (nullish day) eqn:E1; cbn [negb andb].
  { by erewrite bind_throw; [|by apply path1_throw]. }
  erewrite bind_normal; [|by apply path1_normal].
  destruct (nullish (field day "day")) eqn:E2; cbn [negb andb].
  { by erewrite bind_throw; [|by apply path2_throw]. }
  do 6 (erewrite bind_normal; [|by apply path2_normal]).
  destruct (nullish (field (field day "day") "condition")) eqn:E3;
    cbn [negb andb].
  { by erewrite bind_throw; [|by apply path3_throw]. }
  erewrite bind_normal; [|by apply path3_normal].
  destruct (nullish (field day "astro")) eqn:E4; cbn [negb andb].
  { by erewrite bind_throw; [|by apply path2_throw]. }
  do 2 (erewrite bind_normal; [|by apply path2_normal]).
  erewrite bind_normal; [|by apply path1_normal].
  pose proof (js_map_run hourly_of hourly_ok hourly_value (field day "hour") w
                hourly_of_run) as Hm.
  unfold daily_value.
  destruct (array_items (field day "hour")) as [hours|].
  - destruct (forallb hourly_ok hours).
    + erewrite bind_normal; [|exact Hm]. done.
    + erewrite bind_throw; [|exact Hm]. done.
  - erewrite bind_throw; [|exact Hm]. done.
Qed.

Lemma location_of_run location w :
  location_of location w
  = (if negb (nullish location) then Normal (location_value location)
     else Throw TypeError, w).
Proof.
  unfold location_of.
  destruct (nullish location) eqn:E1; cbn [negb].
  { by erewrite bind_throw; [|by apply path1_throw]. }
  do 5 (erewrite bind_normal; [|by apply path1_normal]).
  reflexivity.
Qed.

(** ** The forecast and the search result *)

Lemma getForecast_fetch L d w v c data :
  WeatherCache.get (now w) (forecast_key L d) (cache w) = (v, c) →
  truthy v = false →
  let req := forecast_request (apiKey w) L d in
  let w1 := with_request req (with_cache c w) in
  result (reply_to req w) = inl data →
  getForecast L d w
  = if forecast_ok data
    then (Normal (forecast_value data),
          with_cache (WeatherCache.set (now w1) (forecast_key L d)
                        (forecast_value data) c) w1)
    else (Throw TypeError, w1).
Proof.
  intros Hget Hv req w1 Hreply. unfold getForecast.
  erewrite bind_normal; [|unfold cache_get; by rewrite Hget].
  rewrite Hv. erewrite bind_normal; [|reflexivity]. cbn beta.
  assert (Hax : axios_get (baseUrl +:+ "/forecast.json")
            [("key", VStr (apiKey (with_cache c w))); ("q", VStr L);
             ("days", VNum (inject_Z d)); ("aqi", VStr "yes")] (with_cache c w)
          = (Normal data, w1)).
  { unfold axios_get. change (mkRequest _ _) with req.
    change (reply_to req (with_cache c w)) with (reply_to req w).
    by rewrite Hreply. }
  erewrite bind_normal; [|exact Hax]. clear Hax.
  unfold forecast_ok, forecast_value.
  destruct (nullish data) eqn:E1; cbn [negb andb].
  { erewrite bind_throw; [done|]. cbn [path].
    by erewrite bind_throw; [|by apply get_prop_throw]. }
  destruct (nullish (field data "location")) eqn:E2; cbn [negb andb].
  { by erewrite bind_throw; [|by apply path2_throw]. }
  do 5 (erewrite bind_normal; [|by apply path2_normal]).
  destruct (nullish (field data "forecast")) eqn:E3; cbn [negb andb].
  { by erewrite bind_throw; [|by apply path2_throw]. }
  erewrite bind_normal; [|by apply path2_normal].
  pose proof (js_map_run daily_of daily_ok daily_value
                (field (field data "forecast") "forecastday") w1 daily_of_run)
    as Hm.
  destruct (array_items (field (field data "forecast") "forecastday"))
    as [days|].
  - destruct (forallb daily_ok days).
    + erewrite bind_normal; [|exact Hm]. done.
    + erewrite bind_throw; [|exact Hm]. done.
  - erewrite bind_throw; [|exact Hm]. done.
Qed.

Lemma searchLocations_exact query w :
  let req := search_request (apiKey w) query in
  searchLocations query w
  = (match result (reply_to req w) with
     | inr resp => Throw (AxiosError resp)
     | inl data => search_value data
     end, with_request req w).
Proof.
  intros req. unfold searchLocations.
  erewrite bind_normal; [|reflexivity]. cbn beta.
  assert (Hax : axios_get (baseUrl +:+ "/search.json")
            [("key", VStr (apiKey w)); ("q", VStr query)] w
          = match result (reply_to req w) with
            | inl data => (Normal data, with_request req w)
            | inr resp => (Throw (AxiosError resp), with_request req w)
            end) by reflexivity.
  destruct (result (reply_to req w)) as [data|resp].
  - erewrite bind_normal; [|exact Hax].
    rewrite (js_map_run location_of (λ l, negb (nullish l)) location_value
               data _ location_of_run).
    done.
  - by erewrite bind_throw.
Qed.

Lemma lookup_map {A B} (f : A → B) (l : list A) (i : nat) :
  map f l !! i = f <$> l !! i.
Proof.
  revert i. induction l as [|a l IH]; intros [|i]; try done. apply IH.
Qed.

(** On a miss answered with a payload, [getForecast] returns exactly when
    the payload is well formed ([forecast_ok]); any other payload makes it
    throw a [TypeError] after that one request, nothing is stored, and the
    route answers 500 with the text for internal errors. *)
Theorem getForecast_payload_accepted_or_TypeError L d w data :
  truthy (WeatherCache.get (now w) (forecast_key L d) (cache w)).1 = false →
  result (reply_to (forecast_request (apiKey w) L d) w) = inl data →
  (forecast_ok data = true →
     (getForecast L d w).1 = Normal (forecast_value data) ∧
     ∃ ts, WeatherCache.cache (cache (getForecast L d w).2) !! forecast_key L d
           = Some (WeatherCache.mkEntry (forecast_value data) ts)
           ∧ ts = now (getForecast L d w).2) ∧
  (forecast_ok data = false →
     (getForecast L d w).1 = Throw TypeError ∧
     WeatherCache.cache (cache (getForecast L d w).2)
       ⊆ WeatherCache.cache (cache w) ∧
     (respond (getForecast L d) w).1
     = {| status := 500;
          body := VObj [("error", VStr "Internal server error")] |}) ∧
  log (getForecast L d w).2 = log w ++ [forecast_request (apiKey w) L d].
Proof.
  intros Hmiss Hreply.
  destruct (WeatherCache.get (now w) (forecast_key L d) (cache w))
    as [v c] eqn:Hget.
  cbn [fst] in Hmiss.
  pose proof (getForecast_fetch _ _ _ _ _ _ Hget Hmiss Hreply) as Hrun.
  pose proof (get_subseteq (now w) (forecast_key L d) (cache w)) as Hsub.
  rewrite Hget in Hsub. cbn [snd] in Hsub.
  unfold respond. rewrite Hrun.
  destruct (forecast_ok data); (split; [|split]); try done.
  intros _. split; [done|]. eexists. split; [apply lookup_insert_eq|done].
Qed.

Lemma getForecast_payload_accepted_or_TypeError_witness :
  let w := new_WeatherAPI "k" default_duration 0 (net_always sample_forecast) in
  let w' := new_WeatherAPI "k" default_duration 0 (net_always sample_current) in
  (getForecast "Tokyo" 3 w).1 = Normal (forecast_value sample_forecast)
  ∧ (respond (getForecast "Tokyo" 3) w').1
    = {| status := 500; body := VObj [("error", VStr "Internal server error")] |}.
Proof.
  intros w w'. split.
  - apply (getForecast_payload_accepted_or_TypeError
             "Tokyo" 3 w sample_forecast eq_refl eq_refl). reflexivity.
  - apply (getForecast_payload_accepted_or_TypeError
             "Tokyo" 3 w' sample_current eq_refl eq_refl). reflexivity.
Defined.

(** A forecast that [getForecast] builds has one daily summary for each day
    of the provider's [forecastday], in the provider's order, and each
    summary has one hourly entry for each hour of that day, in order. *)
Theorem getForecast_days_in_order L d w data v w1 :
  truthy (WeatherCache.get (now w) (forecast_key L d) (cache w)).1 = false →
  result (reply_to (forecast_request (apiKey w) L d) w) = inl data →
  getForecast L d w = (Normal v, w1) →
  ∃ days dailies,
    field (field data "forecast") "forecastday" = VArr days ∧
    field v "forecast" = VArr dailies ∧
    length dailies = length days ∧
    ∀ i day, days !! i = Some day →
      dailies !! i = Some (daily_value day) ∧
      ∃ hours hourlies,
        field day "hour" = VArr hours ∧
        field (daily_value day) "hourly" = VArr hourlies ∧
        length hourlies = length hours ∧
        ∀ j hour, hours !! j = Some hour →
          hourlies !! j = Some (hourly_value hour).
Proof.
  intros Hmiss Hreply Hrun.
  destruct (WeatherCache.get (now w) (forecast_key L d) (cache w))
    as [v0 c] eqn:Hget.
  cbn [fst] in Hmiss.
  rewrite (getForecast_fetch _ _ _ _ _ _ Hget Hmiss Hreply) in Hrun.
  destruct (forecast_ok data) eqn:Hok; [|done].
  injection Hrun as <- _.
  unfold forecast_ok in Hok. unfold forecast_value.
  destruct (field (field data "forecast") "forecastday")
    as [| | | | |days|] eqn:Hdays; cbn [array_items] in Hok;
    try by rewrite andb_false_r in Hok.
  apply andb_true_iff in Hok as [_ Hall].
  exists days, (map daily_value days).
  split; [done|]. split; [done|]. split; [apply length_map|].
  intros i day Hi. split; [by rewrite lookup_map, Hi|].
  assert (Hday : daily_ok day = true).
  { rewrite forallb_forall in Hall. apply Hall.
    apply list_elem_of_In, list_elem_of_lookup. eauto. }
  unfold daily_ok in Hday.
  destruct (field day "hour") as [| | | | |hours|] eqn:Hhours;
    cbn [array_items] in Hday; try by rewrite andb_false_r in Hday.
  exists hours, (map hourly_value hours).
  split; [done|]. split.
  { unfold daily_value. rewrite Hhours. done. }
  split; [apply length_map|].
  intros j hour Hj. by rewrite lookup_map, Hj.
Qed.

Lemma getForecast_days_in_order_witness :
  let w := new_WeatherAPI "k" default_duration 0 (net_always sample_forecast) in
  ∃ days dailies,
    field (field sample_forecast "forecast") "forecastday" = VArr days ∧
    field (forecast_value sample_forecast) "forecast" = VArr dailies ∧
    length dailies = length days.
Proof.
  intros w.
  destruct (getForecast_days_in_order "Tokyo" 3 w sample_forecast
              (forecast_value sample_forecast) (getForecast "Tokyo" 3 w).2
              eq_refl eq_refl eq_refl)
    as (days & dailies & H1 & H2 & H3 & _).
  by exists days, dailies.
Defined.

(** On a miss answered with a payload whose [location], [current] or
    [current.condition] is missing or [null], [getCurrentWeather] throws a
    [TypeError] after that one request and stores nothing; the route answers
    500 with the text for internal errors.  For every other payload it
    returns the snapshot and stores it with the time the reply came. *)
Theorem getCurrentWeather_payload_accepted_or_TypeError L w data :
  truthy (WeatherCache.get (now w) (current_key L) (cache w)).1 = false →
  result (reply_to (current_request (apiKey w) L) w) = inl data →
  (current_ok data = true →
     (getCurrentWeather L w).1 = Normal (weatherData_of data) ∧
     ∃ ts, WeatherCache.cache (cache (getCurrentWeather L w).2) !! current_key L
           = Some (WeatherCache.mkEntry (weatherData_of data) ts)
           ∧ ts = now w
                  + Z.of_nat (latency (reply_to (current_request (apiKey w) L) w))) ∧
  (current_ok data = false →
     (getCurrentWeather L w).1 = Throw TypeError ∧
     WeatherCache.cache (cache (getCurrentWeather L w).2)
       ⊆ WeatherCache.cache (cache w) ∧
     (route_current L w).1
     = {| status := 500;
          body := VObj [("error", VStr "Internal server error")] |}) ∧
  log (getCurrentWeather L w).2 = log w ++ [current_request (apiKey w) L].
Proof.
  intros Hmiss Hreply.
  destruct (WeatherCache.get (now w) (current_key L) (cache w))
    as [v c] eqn:Hget.
  cbn [fst] in Hmiss.
  pose proof (getCurrentWeather_miss _ _ _ _ Hget Hmiss) as Hrun.
  cbv zeta in Hrun. rewrite Hreply in Hrun.
  pose proof (get_subseteq (now w) (current_key L) (cache w)) as Hsub.
  rewrite Hget in Hsub. cbn [snd] in Hsub.
  unfold route_current, respond, current_ok. rewrite Hrun.
  destruct (nullish data); cbn [negb andb orb]; [by split; [|split]|].
  destruct (nullish (field data "location")); cbn [negb andb orb];
    [by split; [|split]|].
  destruct (nullish (field data "current")); cbn [negb andb orb];
    [by split; [|split]|].
  destruct (nullish (field (field data "current") "condition"));
    cbn [negb andb orb]; [by split; [|split]|].
  split; [|by split]. intros _. split; [done|].
  eexists. split; [apply lookup_insert_eq|done].
Qed.

Lemma getCurrentWeather_payload_accepted_or_TypeError_witness :
  let w := new_WeatherAPI "k" default_duration 0
             (net_always (VObj [("location", VNull)])) in
  (route_current "Berlin" w).1
  = {| status := 500; body := VObj [("error", VStr "Internal server error")] |}
  ∧ log (getCurrentWeather "Berlin" w).2 = [current_request "k" "Berlin"].
Proof.
  intros w.
  destruct (getCurrentWeather_payload_accepted_or_TypeError
              "Berlin" w (VObj [("location", VNull)]) eq_refl eq_refl)
    as (_ & Hbad & Hlog).
  split; [|exact Hlog]. by apply Hbad.
Defined.

(** [searchLocations] returns one location for each entry of the provider's
    array, in the provider's order, each with the five properties [name],
    [region], [country], [lat], [lon] copied from the entry and nothing
    else; the world after is the world with the request answered. *)
Theorem searchLocations_in_order query w items :
  result (reply_to (search_request (apiKey w) query) w) = inl (VArr items) →
  Forall (λ l, nullish l = false) items →
  ∃ locations,
    searchLocations query w
    = (Normal (VArr locations),
       with_request (search_request (apiKey w) query) w) ∧
    length locations = length items ∧
    ∀ i l, items !! i = Some l →
      locations !! i
      = Some (VObj [("name", field l "name"); ("region", field l "region");
                    ("country", field l "country"); ("lat", field l "lat");
                    ("lon", field l "lon")]).
Proof.
  intros Hreply Hitems.
  exists (map location_value items).
  rewrite searchLocations_exact. cbv zeta. rewrite Hreply.
  unfold search_value. cbn [array_items].
  assert (Hall : forallb (λ l, negb (nullish l)) items = true).
  { apply forallb_forall. intros l Hl.
    rewrite Forall_forall in Hitems.
    by rewrite (Hitems l (proj2 (list_elem_of_In _ _) Hl)). }
  rewrite Hall. split; [done|]. split; [apply length_map|].
  intros i l Hi. by rewrite lookup_map, Hi.
Qed.

Lemma searchLocations_in_order_witness :
  let items := [VObj [("name", VStr "London"); ("country", VStr "UK");
                      ("id", VNum (1 # 1))];
                VObj [("name", VStr "London"); ("country", VStr "Canada")]] in
  let w := new_WeatherAPI "k" default_duration 0 (net_always (VArr items)) in
  ∃ locations,
    (searchLocations "London" w).1 = Normal (VArr locations) ∧
    length locations = 2%nat.
Proof.
  intros items w.
  destruct (searchLocations_in_order "London" w items eq_refl)
    as (locations & Hrun & Hlen & _).
  { repeat constructor. }
  exists locations. by rewrite Hrun.
Defined.

(** When the provider's answer to a search is not an array, or one of its
    entries is [null], [searchLocations] throws a [TypeError] and the route
    answers 500 with the text for internal errors; when the provider rejects
    the request the route answers as [errorHandler] renders the error. *)
Theorem searchLocations_failures query w :
  let req := search_request (apiKey w) query in
  (∀ data, result (reply_to req w) = inl data →
     (array_items data = None
      ∨ ∃ items, array_items data = Some items ∧ Exists (λ l, nullish l = true) items) →
     (searchLocations query w).1 = Throw TypeError ∧
     (route_search query w).1
     = {| status := 500;
          body := VObj [("error", VStr "Internal server error")] |}) ∧
  (∀ resp, result (reply_to req w) = inr resp →
     (searchLocations query w).1 = Throw (AxiosError resp) ∧
     (route_search query w).1 = errorHandler (AxiosError resp)).
Proof.
  intros req. split.
  - intros data Hreply Hbad.
    assert (Hv : search_value data = Throw TypeError).
    { unfold search_value. destruct Hbad as [->|(items & -> & Hex)]; [done|].
      assert (Hall : forallb (λ l, negb (nullish l)) items = false).
      { apply not_true_is_false. intros Hall.
        rewrite forallb_forall in Hall.
        apply Exists_exists in Hex as (l & Hl & Hnull).
        specialize (Hall l (proj1 (list_elem_of_In _ _) Hl)).
        by rewrite Hnull in Hall. }
      by rewrite Hall. }
    unfold route_search, respond. rewrite searchLocations_exact. cbv zeta.
    fold req. by rewrite Hreply, Hv.
  - intros resp Hreply.
    unfold route_search, respond. rewrite searchLocations_exact. cbv zeta.
    fold req. by rewrite Hreply.
Qed.

Lemma searchLocations_failures_witness :
  let w := new_WeatherAPI "k" default_duration 0
             (net_always (VObj [("error", VStr "no")])) in
  (route_search "London" w).1
  = {| status := 500; body := VObj [("error", VStr "Internal server error")] |}
  ∧ (route_search "London" (new_WeatherAPI "k" default_duration 0 net_401)).1
    = {| status := 401; body := VObj [("error", VStr "Invalid key")] |}.
Proof.
  intros w. split.
  - destruct (searchLocations_failures "London" w) as [Hbad _].
    apply (Hbad (VObj [("error", VStr "no")]) eq_refl). by left.
  - destruct (searchLocations_failures "London"
                (new_WeatherAPI "k" default_duration 0 net_401)) as [_ Hrej].
    etrans; [apply (Hrej _ eq_refl)|reflexivity].
Defined.

(** ** What a call changes *)

Lemma getCurrentWeather_outcome_value L w :
  cached_outcome (current_key L) (current_request (apiKey w) L)
    (λ snap, ∃ data,
       result (reply_to (current_request (apiKey w) L) w) = inl data ∧
       snap = weatherData_of data)
    w (getCurrentWeather L w).
Proof.
  destruct (WeatherCache.get (now w) (current_key L) (cache w)) as [v c] eqn:Hget.
  destruct (truthy v) eqn:Hv.
  - rewrite (getCurrentWeather_hit _ _ _ _ Hget Hv). by constructor.
  - rewrite (getCurrentWeather_miss _ _ _ _ Hget Hv). cbv zeta.
    destruct (result _) as [data|resp] eqn:Hreply; [|by econstructor].
    destruct (_ || _); [by econstructor|].
    apply (outcome_fetched _ _ _ _ v); eauto.
Qed.

Lemma getForecast_outcome_value L d w :
  cached_outcome (forecast_key L d) (forecast_request (apiKey w) L d)
    (λ snap, ∃ data,
       result (reply_to (forecast_request (apiKey w) L d) w) = inl data ∧
       snap = forecast_value data)
    w (getForecast L d w).
Proof.
  destruct (WeatherCache.get (now w) (forecast_key L d) (cache w)) as [v c] eqn:Hget.
  destruct (truthy v) eqn:Hv.
  - rewrite (getForecast_hit _ _ _ _ _ Hget Hv). by constructor.
  - destruct (result (reply_to (forecast_request (apiKey w) L d) w))
      as [data|resp] eqn:Hreply.
    + rewrite (getForecast_fetch _ _ _ _ _ _ Hget Hv Hreply).
      destruct (forecast_ok data); [|by econstructor].
      apply (outcome_fetched _ _ _ _ v); eauto.
    + pose proof (getForecast_miss _ _ _ _ _ Hget Hv) as Hrun.
      cbv zeta in Hrun. rewrite Hreply in Hrun. rewrite Hrun.
      by econstructor.
Qed.

(** The outcome of any call, in the terms of its key and its request. *)
Lemma run_op_outcome o w :
  match op_key o with
  | Some key =>
      cached_outcome key (op_request (apiKey w) o)
        (λ snap, ∃ data,
           result (reply_to (op_request (apiKey w) o) w) = inl data ∧
           snap = op_value o data)
        w (run_op o w)
  | None => (run_op o w).2 = with_request (op_request (apiKey w) o) w
  end.
Proof.
  destruct o as [L|L d|q]; cbn [op_key run_op op_request op_value].
  - apply getCurrentWeather_outcome_value.
  - apply getForecast_outcome_value.
  - by rewrite searchLocations_exact.
Qed.

Lemma run_op_preserves o w :
  let w' := (run_op o w).2 in
  apiKey w' = apiKey w ∧
  net w' = net w ∧
  WeatherCache.cacheDuration (cache w') = WeatherCache.cacheDuration (cache w) ∧
  now w ≤ now w' ∧
  (log w' = log w ∨ log w' = log w ++ [op_request (apiKey w) o]) ∧
  (∀ k, op_key o ≠ Some k →
     WeatherCache.cache (cache w') !! k = WeatherCache.cache (cache w) !! k).
Proof.
  intros w'. pose proof (run_op_outcome o w) as Hout. fold w' in Hout.
  destruct (op_key o) as [key|] eqn:Hkey.
  - assert (Hframe : ∀ k, Some key ≠ Some k →
              WeatherCache.cache (cache w') !! k
              = WeatherCache.cache (cache w) !! k).
    { intros k Hk. apply (outcome_frame Hout). congruence. }
    unfold w' in *.
    destruct Hout as [v c Hget _|v c e Hget _|v c snap Hget _ _ w1];
      pose proof (get_duration (now w) key (cache w)) as Hd;
      rewrite Hget in Hd; cbn [snd] in *;
      cbn [apiKey net cache now log with_cache with_request
           WeatherCache.set WeatherCache.cacheDuration];
      try unfold w1;
      cbn [apiKey net cache now log with_cache with_request];
      repeat split; auto; lia.
  - unfold w' in *. rewrite Hout.
    cbn [apiKey net cache now log with_request]. repeat split; auto. lia.
Qed.

(** Whatever the call and its outcome: the API key, the provider and the
    duration of the cache stay as they are, the clock does not go back, the
    log grows by the request of the call or not at all, and no entry other
    than the one under the call's key changes. *)
Theorem run_op_frame o w :
  let w' := (run_op o w).2 in
  apiKey w' = apiKey w ∧
  net w' = net w ∧
  WeatherCache.cacheDuration (cache w') = WeatherCache.cacheDuration (cache w) ∧
  now w ≤ now w' ∧
  (log w' = log w ∨ log w' = log w ++ [op_request (apiKey w) o]) ∧
  (∀ k, op_key o ≠ Some k →
     WeatherCache.cache (cache w') !! k = WeatherCache.cache (cache w) !! k).
Proof. exact (run_op_preserves o w). Qed.

Lemma run_op_frame_witness :
  let w := new_WeatherAPI "k" 100 0 (net_always sample_current) in
  WeatherCache.cache (cache (run_op (OpCurrent "Berlin") w).2)
    !! forecast_key "Berlin" 3
  = WeatherCache.cache (cache w) !! forecast_key "Berlin" 3.
Proof.
  intros w.
  destruct (run_op_frame (OpCurrent "Berlin") w) as (_ & _ & _ & _ & _ & H).
  apply H. by intros [=].
Defined.

(** ** Where cached values come from *)

Lemma op_key_inj o o' k : op_key o = Some k → op_key o' = Some k → o = o'.
Proof.
  intros Hk Hk'.
  destruct o as [L|L d|q], o' as [L'|L' d'|q']; cbn [op_key] in Hk, Hk';
    try done; rewrite <-Hk' in Hk; apply (inj Some) in Hk.
  - by apply current_key_inj in Hk as ->.
  - by apply current_forecast_key_ne in Hk.
  - symmetry in Hk. by apply current_forecast_key_ne in Hk.
  - by apply forecast_key_inj in Hk as [-> ->].
Qed.

Lemma entry_from_provider_mono w w' k e :
  apiKey w' = apiKey w → net w' = net w → now w ≤ now w' →
  (log w' = log w ∨ ∃ req, log w' = log w ++ [req]) →
  entry_from_provider w k e → entry_from_provider w' k e.
Proof.
  intros Hkey Hnet Hnow Hlog [Hts (n & o & data & Hk & Hn & Hres & Hdata)].
  split; [lia|]. exists n, o, data. rewrite Hkey, Hnet.
  repeat split; try done.
  destruct Hlog as [->|[req ->]]; [done|].
  by apply lookup_app_l_Some.
Qed.

Lemma cache_from_provider_call o w :
  cache_from_provider w → cache_from_provider (run_op o w).2.
Proof.
  intros Hinv.
  pose proof (run_op_preserves o w) as (Hkey & Hnet & _ & Hnow & Hlog & Hframe).
  cbv zeta in *.
  assert (Hold : ∀ k e, WeatherCache.cache (cache w) !! k = Some e →
                        entry_from_provider (run_op o w).2 k e).
  { intros k e He. apply (entry_from_provider_mono w); try done.
    - destruct Hlog as [?|?]; eauto.
    - by apply Hinv. }
  pose proof (run_op_outcome o w) as Hout.
  destruct (op_key o) as [key|] eqn:Hopkey.
  - assert (Hsub : ∀ v c k e,
              WeatherCache.get (now w) key (cache w) = (v, c) →
              WeatherCache.cache c !! k = Some e →
              WeatherCache.cache (cache w) !! k = Some e).
    { intros v c k e Hget He.
      pose proof (get_subseteq (now w) key (cache w)) as Hs.
      rewrite Hget in Hs. by eapply lookup_weaken. }
    intros k e He.
    destruct Hout as [v c Hget _|v c e' Hget _|v c snap Hget _ (data & Hres & ->) w1];
      cbn [snd cache with_cache with_request] in *.
    + eapply Hold, Hsub; eauto.
    + eapply Hold, Hsub; eauto.
    + unfold WeatherCache.set in He. cbn [WeatherCache.cache] in He.
      destruct (decide (key = k)) as [<-|Hne].
      * rewrite lookup_insert_eq in He. injection He as <-.
        split; [done|]. exists (length (log w)), o, data.
        cbn [apiKey log net with_cache with_request WeatherCache.data].
        split; [done|]. split; [|by split].
        unfold w1. cbn [log with_cache with_request].
        by rewrite lookup_app_r, Nat.sub_diag.
      * rewrite lookup_insert_ne in He by done. eapply Hold, Hsub; eauto.
  - intros k e He. rewrite Hout in He |- *. by apply Hold in He; rewrite Hout in He.
Qed.

Lemma reachable_cache_from_provider w : reachable w → cache_from_provider w.
Proof.
  induction 1 as [key duration t0 n|w t _ IH Ht|w o _ IH].
  - intros k e He. cbn in He. by rewrite lookup_empty in He.
  - intros k e He. apply (entry_from_provider_mono w); auto.
  - by apply cache_from_provider_call.
Qed.

(** In a gateway, whatever was called before: a value that
    [getCurrentWeather] or [getForecast] returns, found in the cache or just
    fetched, is what that method builds from a payload the provider sent in
    reply to a request of this very call's location (and day count). *)
Theorem served_value_from_provider o k w v :
  reachable w → op_key o = Some k →
  (run_op o w).1 = Normal v →
  let w' := (run_op o w).2 in
  ∃ n data,
    log w' !! n = Some (op_request (apiKey w') o) ∧
    result (net w' n (op_request (apiKey w') o)) = inl data ∧
    v = op_value o data.
Proof.
  intros Hreach Hk Hv w'.
  assert (Hinv : cache_from_provider w').
  { apply reachable_cache_from_provider. by apply reachable_call. }
  pose proof (run_op_outcome o w) as Hout. rewrite Hk in Hout.
  destruct (outcome_stored Hout v Hv) as [ts Hts].
  destruct (Hinv _ _ Hts) as [_ (n & o' & data & Hk' & Hn & Hres & Hdata)].
  rewrite <-(op_key_inj _ _ _ Hk Hk') in *.
  exists n, data. by repeat split.
Qed.

Lemma served_value_from_provider_witness :
  let w := new_WeatherAPI "k" 100 0 (net_always sample_current) in
  let w1 := at_time 70 (run_op (OpCurrent "Berlin") w).2 in
  ∃ n data,
    log (run_op (OpCurrent "Berlin") w1).2 !! n
    = Some (current_request "k" "Berlin") ∧
    result (net_always sample_current n (current_request "k" "Berlin"))
    = inl data ∧
    weatherData_of sample_current = weatherData_of data.
Proof.
  intros w w1.
  apply (served_value_from_provider (OpCurrent "Berlin")
           (current_key "Berlin") w1 (weatherData_of sample_current)).
  - apply reachable_wait; [apply reachable_call, reachable_new|].
    by vm_compute.
  - reflexivity.
  - reflexivity.
Defined.

(** ** Hits, expiry and the clock *)

(** When a cached call of a gateway returns without asking the provider, the
    value it returns is an entry written at most [cacheDuration] ms ago (and
    not in the future): no value older than that is ever served. *)
Theorem hit_is_fresh o k w v :
  reachable w → op_key o = Some k →
  (run_op o w).1 = Normal v →
  log (run_op o w).2 = log w →
  ∃ ts,
    WeatherCache.cache (cache w) !! k = Some (WeatherCache.mkEntry v ts) ∧
    ts ≤ now w < ts + WeatherCache.cacheDuration (cache w).
Proof.
  intros Hreach Hk Hv Hlog.
  pose proof (reachable_cache_from_provider w Hreach) as Hinv.
  pose proof (run_op_outcome o w) as Hout. rewrite Hk in Hout.
  destruct Hout as [v' c Hget Htruthy|v' c e Hget _|v' c snap Hget _ _ w1];
    cbn [fst snd log with_cache with_request] in *.
  - injection Hv as ->. unfold WeatherCache.get in Hget.
    destruct (WeatherCache.cache (cache w) !! k) as [[dt ts]|] eqn:He.
    + cbn [WeatherCache.timestamp WeatherCache.data] in Hget.
      destruct (Z.ltb_spec (now w - ts) (WeatherCache.cacheDuration (cache w)))
        as [Hlt|Hge]; injection Hget as <- <-; [|done].
      exists ts. split; [done|].
      destruct (Hinv _ _ He) as [Hts _].
      cbn [WeatherCache.timestamp] in Hts. lia.
    + by injection Hget as <- <-.
  - done.
  - unfold w1 in Hlog. cbn [log with_cache with_request] in Hlog.
    apply (f_equal length) in Hlog. rewrite length_app in Hlog.
    cbn [length] in Hlog. lia.
Qed.

Lemma hit_is_fresh_witness :
  let w := new_WeatherAPI "k" 100 0 (net_always sample_current) in
  let w1 := at_time 70 (run_op (OpCurrent "Berlin") w).2 in
  ∃ ts,
    WeatherCache.cache (cache w1) !! current_key "Berlin"
    = Some (WeatherCache.mkEntry (weatherData_of sample_current) ts) ∧
    ts ≤ 70 < ts + 100.
Proof.
  intros w w1.
  apply (hit_is_fresh (OpCurrent "Berlin") (current_key "Berlin") w1
           (weatherData_of sample_current)).
  - apply reachable_wait; [apply reachable_call, reachable_new|].
    by vm_compute.
  - reflexivity.
  - reflexivity.
  - reflexivity.
Defined.

(** A cached call of a gateway that finds no entry under its key, or an
    entry whose age has reached [cacheDuration], asks the provider: exactly
    one request, the one of the call.  In particular a gateway constructed
    with a duration of 0 ms or less asks the provider on every call. *)
Theorem absent_or_expired_asks_provider o k w :
  reachable w → op_key o = Some k →
  (WeatherCache.cache (cache w) !! k = None
   ∨ (∃ e, WeatherCache.cache (cache w) !! k = Some e ∧
           WeatherCache.timestamp e + WeatherCache.cacheDuration (cache w) ≤ now w)
   ∨ WeatherCache.cacheDuration (cache w) ≤ 0) →
  log (run_op o w).2 = log w ++ [op_request (apiKey w) o].
Proof.
  intros Hreach Hk Hcase.
  pose proof (reachable_cache_from_provider w Hreach) as Hinv.
  pose proof (run_op_outcome o w) as Hout. rewrite Hk in Hout.
  destruct Hout as [v c Hget Htruthy|v c e Hget _|v c snap Hget _ _ w1];
    [|done..].
  exfalso. unfold WeatherCache.get in Hget.
  destruct (WeatherCache.cache (cache w) !! k) as [e|] eqn:He.
  - destruct (Z.ltb_spec (now w - WeatherCache.timestamp e)
                (WeatherCache.cacheDuration (cache w))) as [Hlt|Hge].
    + destruct (Hinv _ _ He) as [Hts _].
      destruct Hcase as [?|[(e' & [= <-] & Hexp)|Hzero]]; [done|lia|lia].
    + by injection Hget as <- <-.
  - by injection Hget as <- <-.
Qed.

Lemma absent_or_expired_asks_provider_witness :
  let w := new_WeatherAPI "k" 100 0 (net_always sample_current) in
  let w1 := at_time 150 (run_op (OpCurrent "X") w).2 in
  log (run_op (OpCurrent "X") w1).2
  = [current_request "k" "X"; current_request "k" "X"].
Proof.
  intros w w1.
  apply (absent_or_expired_asks_provider (OpCurrent "X") (current_key "X") w1).
  - apply reachable_wait; [apply reachable_call, reachable_new|].
    by vm_compute.
  - reflexivity.
  - right. left. eexists. split; [reflexivity|]. by vm_compute.
Defined.

(** Every request a gateway has sent is the request of one of its three
    methods, carrying the API key the gateway was constructed with. *)
Theorem reachable_log_requests w req :
  reachable w → req ∈ log w → ∃ o, req = op_request (apiKey w) o.
Proof.
  intros Hreach. revert req.
  induction Hreach as [key duration t0 n|w t _ IH _|w o _ IH]; intros req Hin.
  - cbn in Hin. by apply elem_of_nil in Hin.
  - by apply IH.
  - pose proof (run_op_preserves o w) as (Hkey & _ & _ & _ & Hlog & _).
    cbv zeta in *. rewrite Hkey.
    destruct Hlog as [Hlog|Hlog]; rewrite Hlog in Hin; [by apply IH|].
    apply elem_of_app in Hin as [Hin|Hin]; [by apply IH|].
    apply list_elem_of_singleton in Hin as ->. by exists o.
Qed.

Lemma reachable_log_requests_witness :
  let w := (run_op (OpSearch "Lon")
              (new_WeatherAPI "k" 100 0 (net_always sample_current))).2 in
  ∃ o, search_request "k" "Lon" = op_request (apiKey w) o.
Proof.
  intros w. apply (reachable_log_requests w).
  - apply reachable_call, reachable_new.
  - apply list_elem_of_singleton. reflexivity.
Defined.

Lemma run_calls_frame calls w k :
  Forall (λ c, op_key c.2 ≠ Some k) calls →
  WeatherCache.cache (cache (run_calls calls w)) !! k
  = WeatherCache.cache (cache w) !! k
  ∧ WeatherCache.cacheDuration (cache (run_calls calls w))
    = WeatherCache.cacheDuration (cache w).
Proof.
  intros Hcalls. revert w.
  induction Hcalls as [|[t o] calls Ho _ IH]; intros w; [done|].
  cbn [run_calls].
  destruct (IH (run_op o (at_time t w)).2) as [-> ->].
  destruct (run_op_preserves o (at_time t w)) as (_ & _ & Hd & _ & _ & Hframe).
  cbv zeta in *. by rewrite Hd, (Hframe k Ho).
Qed.

Lemma run_op_hit o k w v :
  op_key o = Some k →
  WeatherCache.get (now w) k (cache w) = (v, cache w) → truthy v = true →
  run_op o w = (Normal v, w).
Proof.
  intros Hk Hget Hv.
  destruct o as [L|L d|q]; cbn [op_key run_op] in *; try done;
    injection Hk as <-.
  - rewrite (getCurrentWeather_hit _ _ _ _ Hget Hv). by destruct w.
  - rewrite (getForecast_hit _ _ _ _ _ Hget Hv). by destruct w.
Qed.

(** Once [getCurrentWeather] or [getForecast] has returned a value, the
    same call made again within the freshness window of the entry returns
    that value, sends no request and changes nothing, whatever calls with
    other arguments (or searches) were made in between. *)
Theorem hit_survives_other_calls o k w v calls :
  op_key o = Some k →
  (run_op o w).1 = Normal v →
  Forall (λ c, op_key c.2 ≠ Some k) calls →
  let w1 := (run_op o w).2 in
  let w2 := run_calls calls w1 in
  ∃ ts,
    WeatherCache.cache (cache w1) !! k = Some (WeatherCache.mkEntry v ts) ∧
    ∀ t, ts ≤ t < ts + WeatherCache.cacheDuration (cache w1) →
      run_op o (at_time t w2) = (Normal v, at_time t w2).
Proof.
  intros Hk Hv Hcalls w1 w2.
  pose proof (run_op_outcome o w) as Hout. rewrite Hk in Hout.
  destruct (outcome_stored Hout v Hv) as [ts Hts]. fold w1 in Hts.
  assert (Htruthy : truthy v = true).
  { destruct Hout as [v' c _ Ht|v' c e _ _|v' c snap _ _ (data & _ & ->) w0];
      cbn [fst] in Hv; [by injection Hv as <-|done|].
    injection Hv as <-. by destruct o. }
  exists ts. split; [done|]. intros t Ht.
  destruct (run_calls_frame calls w1 k Hcalls) as [Hlook Hdur]. fold w2 in Hlook, Hdur.
  apply (run_op_hit o k); [done| |done].
  apply (get_fresh _ _ _ (WeatherCache.mkEntry v ts)).
  - cbn [cache at_time]. by rewrite Hlook.
  - cbn [cache at_time now WeatherCache.timestamp]. rewrite Hdur. lia.
Qed.

Lemma hit_survives_other_calls_witness :
  let w := new_WeatherAPI "k" 100 0 (net_always sample_forecast) in
  let w1 := (run_op (OpForecast "Tokyo" 3) w).2 in
  let w2 := run_calls [(30, OpForecast "Tokyo" 5); (40, OpSearch "Tok");
                       (50, OpCurrent "Tokyo")] w1 in
  run_op (OpForecast "Tokyo" 3) (at_time 90 w2)
  = (Normal (forecast_value sample_forecast), at_time 90 w2).
Proof.
  intros w w1 w2.
  destruct (hit_survives_other_calls (OpForecast "Tokyo" 3)
              (forecast_key "Tokyo" 3) w (forecast_value sample_forecast)
              [(30, OpForecast "Tokyo" 5); (40, OpSearch "Tok");
               (50, OpCurrent "Tokyo")] eq_refl eq_refl)
    as (ts & Hts & Hwin).
  { repeat constructor; by intros [=]. }
  assert (Hts' : ts = 20).
  { vm_compute in Hts. by injection Hts. }
  apply (Hwin 90). rewrite Hts'.
  change (WeatherCache.cacheDuration _) with 100. lia.
Defined.

(** ** More on the expiring cache *)

Section CacheMore.
Import WeatherCache.

(** Lazy expiry is permanent: once [get] has returned [null] for a key, it
    returns [null] for that key at every later call, whatever the clock
    shows, until the key is set again; and a lookup repeated at the same
    time returns the same and changes nothing more. *)
Theorem get_null_stays_null (K : string) (c : WeatherCache.t) (t t' : Z) :
  ((get t K c).1 = VNull → (get t' K (get t K c).2).1 = VNull) ∧
  get t K (get t K c).2 = get t K c.
Proof.
  destruct (cache c !! K) as [e|] eqn:He.
  - destruct (Z.lt_ge_cases (t - timestamp e) (cacheDuration c)) as [Hlt|Hge].
    + rewrite (get_fresh t K c e He Hlt). cbn [fst snd].
      split; [|by apply get_fresh].
      intros Hnull.
      destruct (Z.lt_ge_cases (t' - timestamp e) (cacheDuration c)) as [Hlt'|Hge'].
      * by rewrite (get_fresh t' K c e He Hlt').
      * by rewrite (get_stale t' K c e He Hge').
    + rewrite (get_stale t K c e He Hge). cbn [fst snd].
      split; [intros _|]; by rewrite get_absent by apply lookup_delete_eq.
  - rewrite (get_absent t K c He). cbn [fst snd].
    split; [intros _|]; by rewrite get_absent.
Qed.

Lemma get_null_stays_null_witness :
  (get 5 "k" (get 2000 "k" (set 0 "k" (VStr "v") (new 1000))).2).1 = VNull.
Proof.
  by apply (proj1 (get_null_stays_null "k" (set 0 "k" (VStr "v") (new 1000))
                     2000 5)).
Defined.

(** Keys do not interfere: setting or looking up one key changes neither
    the entry nor any later lookup of another key, and two [set]s on
    different keys give the same cache in either order. *)
Theorem cache_keys_independent (K K' : string) (V V' : jsval) (T T' t : Z)
    (c : WeatherCache.t) :
  K ≠ K' →
  get t K' (set T K V c)
  = ((get t K' c).1, set T K V (get t K' c).2) ∧
  (get t K' (get T K c).2).1 = (get t K' c).1 ∧
  set T K V (set T' K' V' c) = set T' K' V' (set T K V c).
Proof.
  intros Hne. split; [|split].
  - unfold get. rewrite set_lookup_ne by done.
    destruct (cache c !! K') as [e|]; [|done].
    cbn [cacheDuration set]. destruct (_ <? _); [done|].
    cbn [fst snd]. unfold set. cbn [cache cacheDuration]. do 2 f_equal.
    by rewrite delete_insert_ne.
  - pose proof (get_lookup_ne T K K' c Hne) as Hl.
    pose proof (get_duration T K c) as Hd.
    unfold get at 1 3. rewrite Hl, Hd.
    destruct (cache c !! K') as [e|]; [|done]. by destruct (_ <? _).
  - unfold set. cbn [cache cacheDuration]. f_equal.
    by apply insert_insert_ne.
Qed.

Lemma cache_keys_independent_witness :
  (get 10 "current_b" (set 5 "current_a" (VStr "A")
                         (set 0 "current_b" (VStr "B") (new 1000)))).1
  = VStr "B".
Proof.
  destruct (cache_keys_independent "current_a" "current_b" (VStr "A") (VStr "B")
              5 0 10 (set 0 "current_b" (VStr "B") (new 1000)))
    as (H & _ & _); [done|].
  by rewrite H.
Defined.

End CacheMore.

(** ** The error handler *)

(** Whatever the error, the body [errorHandler] sends is an object with the
    single property [error], whose value is never empty, [null] or
    [undefined], and the status is never 0. *)
Theorem errorHandler_body err :
  keys (body (errorHandler err)) = ["error"] ∧
  truthy (field (body (errorHandler err)) "error") = true ∧
  status (errorHandler err) ≠ 0.
Proof.
  destruct err as [[[st data]|]|]; cbn [errorHandler body status keys field
    own_prop number_or fmap list_fmap fst default String.eqb Ascii.eqb
    Bool.eqb]; repeat split; try done.
  - unfold or_else. by destruct (truthy (opt_field _ _)) eqn:E.
  - destruct (Z.eqb_spec st 0); [done|]. done.
Qed.

(** ** Reading the day count *)

Example parseInt_decimal : parseInt "5" = Finite 5.
Proof. reflexivity. Qed.

Example parseInt_prefix : parseInt "  -12abc" = Finite (-12).
Proof. reflexivity. Qed.

Example parseInt_hex : parseInt "0x1F" = Finite 31.
Proof. reflexivity. Qed.

Example parseInt_no_digit :
  parseInt "abc" = NotANumber ∧ parseInt "" = NotANumber.
Proof. by split. Qed.

Example parseInt_rounds_to_double :
  parseInt "9007199254740993" = Finite 9007199254740992
  ∧ parseInt "-9007199254740995" = Finite (-9007199254740996)
  ∧ parseInt "100000000000000000000000" = Finite 99999999999999991611392.
Proof. by vm_compute. Qed.

Example to_double_overflows : to_double (10 ^ 400) = Infinite false.
Proof. by vm_compute. Qed.

Example parseInt_skips_no_break_space :
  parseInt (String (ascii_of_nat 194) (String (ascii_of_nat 160) "5"))
  = Finite 5.
Proof. by vm_compute. Qed.

Lemma digit_value_pretty_N_char (x : N) :
  (x < 10)%N → digit_value 10 (pretty_N_char x) = Some (Z.of_N x).
Proof.
  intros Hx.
  assert (x = 0 ∨ x = 1 ∨ x = 2 ∨ x = 3 ∨ x = 4 ∨ x = 5 ∨ x = 6 ∨ x = 7
          ∨ x = 8 ∨ x = 9)%N as Hcases by lia.
  repeat (destruct Hcases as [->|Hcases]; [reflexivity|]). by subst.
Qed.

Lemma is_digit_pretty_N_char (x : N) : is_digit (pretty_N_char x) = true.
Proof. unfold pretty_N_char. by repeat case_match. Qed.

Lemma parse_digits_pretty_N_go (x : N) (s : string) :
  (0 < x)%N →
  parse_digits 10 (pretty_N_go x s) None = parse_digits 10 s (Some (Z.of_N x)).
Proof.
  revert s. induction (N.lt_wf_0 x) as [x _ IH]; intros s Hx.
  rewrite pretty_N_go_step by done.
  assert (Hmod : (x `mod` 10 < 10)%N) by (apply N.mod_lt; lia).
  assert (Hlt : (x `div` 10 < x)%N) by (apply N.div_lt; lia).
  assert (Hx10 : Z.of_N x = 10 * Z.of_N (x `div` 10) + Z.of_N (x `mod` 10)).
  { rewrite (N.div_mod x 10) at 1 by lia. rewrite N2Z.inj_add, N2Z.inj_mul. done. }
  set (q := (x `div` 10)%N) in *. set (r := (x `mod` 10)%N) in *.
  assert (q = 0 ∨ 0 < q)%N as [H0|Hpos] by lia.
  - rewrite H0 in Hx10 |- *. rewrite pretty_N_go_0. cbn [parse_digits].
    rewrite (digit_value_pretty_N_char _ Hmod). cbn [default].
    do 2 f_equal. rewrite Hx10. done.
  - rewrite IH by done. cbn [parse_digits].
    rewrite (digit_value_pretty_N_char _ Hmod). cbn [default].
    do 2 f_equal. rewrite Hx10. done.
Qed.

(** A printed positive number starts with a digit. *)
Lemma pretty_N_go_head (x : N) (s : string) :
  (0 < x)%N → ∃ a r, pretty_N_go x s = String a r ∧ is_digit a = true
                     ∧ (∀ b r', r = String b r' →
                          is_digit b = true ∨ r = s).
Proof.
  revert s. induction (N.lt_wf_0 x) as [x _ IH]; intros s Hx.
  rewrite pretty_N_go_step by done.
  destruct (N.eq_0_gt_0_cases (x `div` 10)) as [H0|Hpos].
  - rewrite H0, pretty_N_go_0. eexists _, _. split; [done|].
    split; [apply is_digit_pretty_N_char|]. eauto.
  - destruct (IH (x `div` 10)%N) with (s := String (pretty_N_char (x `mod` 10)) s)
      as (a & r & -> & Ha & Hr); [apply N.div_lt; lia|done|].
    exists a, r. split; [done|]. split; [done|].
    intros b r' Hbr. destruct (Hr b r' Hbr) as [?|Heq]; [by left|].
    left. rewrite Heq in Hbr. injection Hbr as <- _.
    apply is_digit_pretty_N_char.
Qed.

Lemma pretty_N_go_append (x : N) (s rest : string) :
  pretty_N_go x s +:+ rest = pretty_N_go x (s +:+ rest).
Proof.
  revert s. induction (N.lt_wf_0 x) as [x _ IH]; intros s.
  destruct (N.eq_0_gt_0_cases x) as [->|Hx]; [by rewrite !pretty_N_go_0|].
  rewrite (pretty_N_go_step x s), (pretty_N_go_step x (s +:+ rest)) by done.
  by rewrite IH by (apply N.div_lt; lia).
Qed.

Lemma pretty_Npos (p : positive) : pretty (N.pos p) = pretty_N_go (N.pos p) "".
Proof. unfold pretty, pretty_N. by case_decide. Qed.

Lemma is_digit_is_ascii a :
  is_digit a = true → is_ascii a = true ∧ is_white_space a = false.
Proof. by destruct a as [[] [] [] [] [] [] [] []]. Qed.

Lemma is_digit_not_x a : is_digit a = true → a ≠ "x"%char ∧ a ≠ "X"%char.
Proof. by destruct a as [[] [] [] [] [] [] [] []]. Qed.

Lemma not_digit_value a : is_digit a = false → digit_value 10 a = None.
Proof. by destruct a as [[] [] [] [] [] [] [] []]. Qed.

(** No ASCII character starts a white space of several bytes. *)
Lemma is_ascii_not_lead a b c :
  is_ascii a = true → white_space_2 a b = false ∧ white_space_3 a b c = false.
Proof. by destruct a as [[] [] [] [] [] [] [] []]. Qed.

Lemma trim_start_white_space ws s :
  all_chars is_white_space ws = true → trim_start (ws +:+ s) = trim_start s.
Proof.
  induction ws as [|a ws IH]; [done|]. cbn [all_chars]. intros Hws.
  apply andb_true_iff in Hws as [Ha Hws].
  change (String a ws +:+ s) with (String a (ws +:+ s)).
  cbn [trim_start]. rewrite Ha. by apply IH.
Qed.

Lemma trim_start_all_white_space ws :
  all_chars is_white_space ws = true → trim_start ws = "".
Proof.
  induction ws as [|a ws IH]; [done|]. cbn [all_chars]. intros Hws.
  apply andb_true_iff in Hws as [Ha Hws].
  cbn [trim_start]. rewrite Ha. by apply IH.
Qed.

Lemma trim_start_ascii a r :
  is_ascii a = true → is_white_space a = false →
  trim_start (String a r) = String a r.
Proof.
  intros Ha Hws. cbn [trim_start]. rewrite Hws.
  destruct r as [|b [|c r']]; try done.
  - by rewrite (proj1 (is_ascii_not_lead a b b Ha)).
  - destruct (is_ascii_not_lead a b c Ha) as [-> ->]. done.
Qed.

Lemma to_double_exact z : exact_integer z = true → to_double z = Finite z.
Proof. unfold exact_integer, to_double. by intros ->. Qed.

(** Rounding to a double never turns a non-zero integer into zero. *)
Lemma double_or_to_double n d : n ≠ 0 → double_or (to_double n) d = to_double n.
Proof.
  intros Hn. unfold to_double.
  destruct (Z.ltb_spec (Z.abs n) (2 ^ 53)) as [Hlt|Hge]; cbn [double_or].
  { by destruct (Z.eqb_spec n 0). }
  set (a := Z.abs n) in *. set (e := Z.log2 a - 52).
  assert (Hlog : 53 ≤ Z.log2 a).
  { rewrite <-(Z.log2_pow2 53) by lia. by apply Z.log2_le_mono. }
  assert (He : 0 < e) by (unfold e; lia).
  assert (Hq : 0 < Z.shiftr a e).
  { rewrite Z.shiftr_div_pow2 by lia. apply Z.div_str_pos. split; [lia|].
    etrans; [|apply Z.log2_spec; lia].
    apply Z.pow_le_mono_r; unfold e; lia. }
  set (q := Z.shiftr a e) in *.
  set (q' := if (2 ^ (e - 1) <? a mod 2 ^ e)
                 || (a mod 2 ^ e =? 2 ^ (e - 1)) && Z.odd q
              then q + 1 else q).
  assert (Hq' : 0 < q') by (unfold q'; destruct (_ || _); lia).
  destruct (2 ^ 1024 <=? q' * 2 ^ e); [done|]. cbn [double_or].
  assert (Hv : 0 < q' * 2 ^ e) by (apply Z.mul_pos_pos; lia).
  destruct (Z.eqb_spec (Z.sgn n * (q' * 2 ^ e)) 0) as [H0|]; [|done].
  exfalso. apply Z.mul_eq_0 in H0 as [H0|H0]; [|lia].
  apply Z.sgn_null_iff in H0. lia.
Qed.

(** [parseInt] on a string that starts with a decimal digit and does not
    start with [0x] or [0X]. *)
Lemma parseInt_leading_digit a r :
  is_digit a = true →
  (∀ b r', r = String b r' → b ≠ "x"%char ∧ b ≠ "X"%char) →
  parseInt (String a r)
  = match parse_digits 10 (String a r) None with
    | Some n => to_double n
    | None => NotANumber
    end.
Proof.
  intros Ha Hr.
  assert (Hmul : ∀ o : option Z,
            match o with Some n => to_double (1 * n) | None => NotANumber end
            = match o with Some n => to_double n | None => NotANumber end).
  { intros [n|]; [|done]. by rewrite Z.mul_1_l. }
  rewrite <-Hmul. unfold parseInt.
  destruct (is_digit_is_ascii a Ha) as [Hascii Hws].
  rewrite (trim_start_ascii a r Hascii Hws).
  destruct a as [[] [] [] [] [] [] [] []]; try discriminate Ha; try reflexivity.
  destruct r as [|b r']; [reflexivity|].
  destruct (Hr b r' eq_refl) as [Hx HX].
  destruct b as [[] [] [] [] [] [] [] []]; done.
Qed.

Lemma parseInt_minus_leading_digit a r :
  is_digit a = true →
  (∀ b r', r = String b r' → b ≠ "x"%char ∧ b ≠ "X"%char) →
  parseInt (String "-" (String a r))
  = match parse_digits 10 (String a r) None with
    | Some n => to_double (- n)
    | None => NotANumber
    end.
Proof.
  intros Ha Hr.
  assert (Hmul : ∀ o : option Z,
            match o with Some n => to_double (-1 * n) | None => NotANumber end
            = match o with Some n => to_double (- n) | None => NotANumber end).
  { intros [n|]; [|done]. f_equal; lia. }
  rewrite <-Hmul. unfold parseInt.
  rewrite (trim_start_ascii "-" (String a r) eq_refl eq_refl).
  destruct a as [[] [] [] [] [] [] [] []]; try discriminate Ha; try reflexivity.
  destruct r as [|b r']; [reflexivity|].
  destruct (Hr b r' eq_refl) as [Hx HX].
  destruct b as [[] [] [] [] [] [] [] []]; done.
Qed.

Lemma parse_digits_stop rest acc :
  (∀ c r, rest = String c r → is_digit c = false) →
  parse_digits 10 rest acc = acc.
Proof.
  intros Hrest. destruct rest as [|c r]; [done|].
  cbn [parse_digits]. by rewrite (not_digit_value c (Hrest c r eq_refl)).
Qed.

Lemma parseInt_pretty_N_go (p : positive) (rest : string) :
  (∀ c r, rest = String c r →
     is_digit c = false ∧ c ≠ "x"%char ∧ c ≠ "X"%char) →
  parseInt (pretty_N_go (N.pos p) rest) = to_double (Z.pos p)
  ∧ parseInt (String "-" (pretty_N_go (N.pos p) rest)) = to_double (Z.neg p).
Proof.
  intros Hrest.
  destruct (pretty_N_go_head (N.pos p) rest) as (a & r & Heq & Ha & Hr); [lia|].
  assert (Hsecond : ∀ b r', r = String b r' → b ≠ "x"%char ∧ b ≠ "X"%char).
  { intros b r' Hbr. destruct (Hr b r' Hbr) as [Hb| ->].
    - by apply is_digit_not_x.
    - by destruct (Hrest b r' Hbr) as (_ & ? & ?). }
  assert (Hdigits : parse_digits 10 (String a r) None = Some (Z.pos p)).
  { rewrite <-Heq, parse_digits_pretty_N_go by lia.
    apply parse_digits_stop. intros c r' Hc. by destruct (Hrest c r' Hc). }
  rewrite Heq. split.
  - by rewrite parseInt_leading_digit, Hdigits.
  - by rewrite parseInt_minus_leading_digit, Hdigits.
Qed.

(** [parseInt] reads back every integer printed in decimal, as the double
    nearest to it: leading white space is skipped, and whatever follows the
    digits is ignored, provided it does not start with a digit (or with [x]
    or [X], which after a lone [0] would announce a hexadecimal number). *)
Theorem parseInt_reads_decimal (n : Z) (ws rest : string) :
  all_chars is_white_space ws = true →
  (∀ c r, rest = String c r →
     is_digit c = false ∧ c ≠ "x"%char ∧ c ≠ "X"%char) →
  parseInt (ws +:+ pretty n +:+ rest) = to_double n.
Proof.
  intros Hws Hrest.
  assert (Htrim : parseInt (ws +:+ pretty n +:+ rest)
                  = parseInt (pretty n +:+ rest)).
  { unfold parseInt. by rewrite trim_start_white_space. }
  rewrite Htrim. destruct n as [|p|p].
  - change (pretty 0 +:+ rest) with (String "0" rest).
    rewrite parseInt_leading_digit; [|done|].
    + cbn [parse_digits]. change (digit_value 10 "0") with (Some 0).
      cbn [default]. rewrite parse_digits_stop; [done|].
      intros c r Hc. by destruct (Hrest c r Hc).
    + intros b r' Hb. by destruct (Hrest b r' Hb) as (_ & ? & ?).
  - change (pretty (Z.pos p)) with (pretty (N.pos p)).
    rewrite pretty_Npos, pretty_N_go_append.
    by apply parseInt_pretty_N_go.
  - change (pretty (Z.neg p)) with ("-" +:+ pretty (N.pos p)).
    rewrite pretty_Npos.
    change (("-" +:+ pretty_N_go (N.pos p) "") +:+ rest)
      with (String "-" (pretty_N_go (N.pos p) "" +:+ rest)).
    rewrite pretty_N_go_append. by apply parseInt_pretty_N_go.
Qed.

Lemma parseInt_reads_decimal_witness :
  parseInt ("  " +:+ pretty (-14) +:+ "days") = Finite (-14).
Proof.
  etrans; [apply (parseInt_reads_decimal (-14) "  " "days"); [reflexivity|]|].
  - intros c r [= <- <-]. by repeat split.
  - reflexivity.
Defined.

(** ** The forecast route *)

Lemma route_forecast_exact L q w n :
  route_days q = Finite n → exact_integer n = true →
  route_forecast L q w = Some (respond (getForecast L n) w).
Proof. intros Hd Hn. unfold route_forecast. by rewrite Hd, Hn. Qed.

Lemma respond_forecast_miss_sends L n w :
  WeatherCache.cache (cache w) !! forecast_key L n = None →
  log (respond (getForecast L n) w).2
  = log w ++ [forecast_request (apiKey w) L n].
Proof.
  intros Hnone.
  pose proof (outcome_miss_sends (getForecast_outcome L n w) Hnone) as Hlog.
  unfold respond. by destruct (getForecast L n w) as [[v|e] w'].
Qed.

(** C8 as the specification words it: the route does not always call
    [getForecast] with the day count [parseInt] returns.  For [?days=0],
    [parseInt] returns 0 and the route asks for 3 days. *)
Lemma C8_counterexample :
  ¬ (∀ (L : string) (q : option qs_value) (n : Z) (w : World),
       parseInt (query_to_string q) = Finite n →
       route_forecast L q w = Some (respond (getForecast L n) w)).
Proof.
  intros H.
  specialize (H "Tokyo" (Some (QStr "0")) 0
                (new_WeatherAPI "k" default_duration 0 net_401) eq_refl).
  apply (f_equal (λ r, log <$> (snd <$> r))) in H.
  vm_compute in H. discriminate H.
Qed.

(** C8 (amended): the forecast route passes on the number [parseInt] finds
    in the [days] parameter when that number is not zero, and 3 when the
    parameter is absent or has no leading number; [getForecast] is called
    with that day count and, on a miss, sends it to the provider (shown for
    the day counts below 2^53 in absolute value). *)
Theorem C8_forecast_route_days L q w :
  (∀ n, parseInt (query_to_string q) = Finite n → n ≠ 0 →
     route_days q = Finite n ∧
     (exact_integer n = true →
        route_forecast L q w = Some (respond (getForecast L n) w))) ∧
  (∀ b, parseInt (query_to_string q) = Infinite b →
     route_days q = Infinite b) ∧
  (q = None →
     route_days q = Finite 3 ∧
     route_forecast L q w = Some (respond (getForecast L 3) w)) ∧
  (parseInt (query_to_string q) = NotANumber →
     route_days q = Finite 3 ∧
     route_forecast L q w = Some (respond (getForecast L 3) w)) ∧
  (∀ n, route_days q = Finite n → exact_integer n = true →
     WeatherCache.cache (cache w) !! forecast_key L n = None →
     route_forecast L q w = Some (respond (getForecast L n) w) ∧
     log (respond (getForecast L n) w).2
     = log w ++ [forecast_request (apiKey w) L n]).
Proof.
  split; [|split; [|split; [|split]]].
  - intros n Hn Hn0.
    assert (Hd : route_days q = Finite n).
    { unfold route_days. rewrite Hn. cbn [double_or].
      by apply Z.eqb_neq in Hn0 as ->. }
    split; [done|]. intros Hexact. by apply route_forecast_exact.
  - intros b Hb. unfold route_days. by rewrite Hb.
  - by intros ->.
  - intros Hnan.
    assert (Hd : route_days q = Finite 3) by (unfold route_days; by rewrite Hnan).
    split; [done|]. by apply route_forecast_exact.
  - intros n Hd Hexact Hnone. split; [by apply route_forecast_exact|].
    by apply respond_forecast_miss_sends.
Qed.

Lemma C8_forecast_route_days_witness :
  let w := new_WeatherAPI "k" default_duration 0 (net_always sample_forecast) in
  route_days (Some (QStr "5")) = Finite 5
  ∧ route_days None = Finite 3
  ∧ route_days (Some (QStr "abc")) = Finite 3
  ∧ route_forecast "Tokyo" (Some (QStr "5")) w
    = Some (respond (getForecast "Tokyo" 5) w)
  ∧ log (respond (getForecast "Tokyo" 5) w).2
    = [forecast_request "k" "Tokyo" 5].
Proof.
  intros w.
  destruct (C8_forecast_route_days "Tokyo" (Some (QStr "5")) w)
    as (Hnum & _ & _ & _ & Hlog).
  destruct (C8_forecast_route_days "Tokyo" None w) as (_ & _ & Habsent & _).
  destruct (C8_forecast_route_days "Tokyo" (Some (QStr "abc")) w)
    as (_ & _ & _ & Hnan & _).
  split; [apply (Hnum 5); [reflexivity|lia]|].
  split; [by apply Habsent|].
  split; [by apply Hnan|].
  apply (Hlog 5); reflexivity.
Defined.

(** C10: a [days] parameter that parses to 0 gives the default 3, since 0
    is falsy in [parseInt(days) || 3]; a negative count is passed on as it
    is: it is the argument of [getForecast] and, on a miss, is sent to the
    provider (shown for the counts above -2^53). *)
Theorem C10_zero_days_default_negative_days_passed L q w n :
  parseInt (query_to_string q) = Finite n →
  route_days q = double_or (Finite n) 3 ∧
  (n = 0 →
     route_days q = Finite 3 ∧
     route_forecast L q w = Some (respond (getForecast L 3) w)) ∧
  (n < 0 →
     route_days q = Finite n ∧
     (exact_integer n = true →
        route_forecast L q w = Some (respond (getForecast L n) w) ∧
        (WeatherCache.cache (cache w) !! forecast_key L n = None →
           log (respond (getForecast L n) w).2
           = log w ++ [forecast_request (apiKey w) L n]))).
Proof.
  intros Hn.
  assert (Hd : route_days q = double_or (Finite n) 3).
  { unfold route_days. by rewrite Hn. }
  split; [done|]. split.
  - intros ->. split; [done|]. by apply route_forecast_exact.
  - intros Hneg.
    assert (Hd' : route_days q = Finite n).
    { rewrite Hd. cbn [double_or]. destruct (Z.eqb_spec n 0); [lia|done]. }
    split; [done|]. intros Hexact.
    split; [by apply route_forecast_exact|].
    apply respond_forecast_miss_sends.
Qed.

Lemma C10_zero_days_default_negative_days_passed_witness :
  let w := new_WeatherAPI "k" default_duration 0 net_401 in
  route_days (Some (QStr "0")) = Finite 3
  ∧ route_days (Some (QStr "-2")) = Finite (-2)
  ∧ route_forecast "Tokyo" (Some (QStr "-2")) w
    = Some (respond (getForecast "Tokyo" (-2)) w)
  ∧ log (respond (getForecast "Tokyo" (-2)) w).2
    = [forecast_request "k" "Tokyo" (-2)].
Proof.
  intros w.
  destruct (C10_zero_days_default_negative_days_passed
              "Tokyo" (Some (QStr "0")) w 0 eq_refl) as (_ & Hzero & _).
  destruct (C10_zero_days_default_negative_days_passed
              "Tokyo" (Some (QStr "-2")) w (-2) eq_refl) as (_ & _ & Hneg).
  split; [by apply Hzero|].
  destruct Hneg as (Hd & Hcall); [lia|].
  split; [exact Hd|].
  destruct (Hcall eq_refl) as [Hroute Hlog].
  split; [exact Hroute|]. by apply Hlog.
Defined.

Lemma join_comma_cons s l :
  join_comma (s :: l) = s ∨ ∃ tail, join_comma (s :: l) = s +:+ String "," tail.
Proof. destruct l as [|s' l]; [by left|right]. by eexists. Qed.

Lemma string_app_assoc (s1 s2 s3 : string) :
  (s1 +:+ s2) +:+ s3 = s1 +:+ (s2 +:+ s3).
Proof.
  induction s1 as [|a s1 IH]; [done|].
  change (String a ((s1 +:+ s2) +:+ s3) = String a (s1 +:+ (s2 +:+ s3))).
  by rewrite IH.
Qed.

(** The forecast route takes the day count written in decimal in [days]
    (possibly after white space and before other text), and the first one
    when [days] is given several times: the count is the double nearest to
    the number written, 3 if that number is 0; below 2^53 in absolute value
    it is the number itself, and [getForecast] is called with it. *)
Theorem route_days_decimal (L : string) (w : World) (n : Z) (ws rest : string)
    (more : list qs_value) :
  all_chars is_white_space ws = true →
  (∀ c r, rest = String c r →
     is_digit c = false ∧ c ≠ "x"%char ∧ c ≠ "X"%char) →
  let days := QStr (ws +:+ pretty n +:+ rest) in
  let count := if Z.eqb n 0 then Finite 3 else to_double n in
  route_days (Some days) = count ∧
  route_days (Some (QArr (days :: more))) = count ∧
  (exact_integer n = true →
     route_forecast L (Some days) w
     = Some (respond (getForecast L (if Z.eqb n 0 then 3 else n)) w)).
Proof.
  intros Hws Hrest days count.
  assert (Hcount : double_or (to_double n) 3 = count).
  { unfold count. destruct (Z.eqb_spec n 0) as [->|Hn]; [done|].
    by apply double_or_to_double. }
  assert (Hdays : route_days (Some days) = count).
  { unfold route_days, days. cbn [query_to_string qs_to_string].
    by rewrite parseInt_reads_decimal. }
  split; [done|]. split.
  - unfold route_days, days. cbn [query_to_string qs_to_string map].
    destruct (join_comma_cons (ws +:+ pretty n +:+ rest)
                (map qs_to_string more)) as [->|[tail ->]].
    + by rewrite parseInt_reads_decimal.
    + rewrite !string_app_assoc. rewrite parseInt_reads_decimal; [done..|].
      intros c r Hc. destruct rest as [|c' rest'].
      * injection Hc as <- _. by repeat split.
      * injection Hc as <- _. by apply (Hrest c' rest').
  - intros Hexact. apply route_forecast_exact.
    + rewrite Hdays. unfold count.
      destruct (Z.eqb_spec n 0); [done|]. by apply to_double_exact.
    + by destruct (Z.eqb_spec n 0).
Qed.

Lemma route_days_decimal_witness :
  let w := new_WeatherAPI "k" default_duration 0 net_401 in
  route_days (Some (QStr (pretty 7))) = Finite 7
  ∧ route_days (Some (QArr [QStr (pretty 5); QStr "9"])) = Finite 5
  ∧ route_days (Some (QStr (pretty 9007199254740993)))
    = Finite 9007199254740992
  ∧ route_forecast "Tokyo" (Some (QStr (pretty 7))) w
    = Some (respond (getForecast "Tokyo" 7) w).
Proof.
  intros w.
  destruct (route_days_decimal "Tokyo" w 7 "" "" [] eq_refl) as (H7 & _ & Hr);
    [done|].
  destruct (route_days_decimal "Tokyo" w 5 "" "" [QStr "9"] eq_refl)
    as (_ & H5 & _); [done|].
  destruct (route_days_decimal "Tokyo" w 9007199254740993 "" "" [] eq_refl)
    as (Hbig & _ & _); [done|].
  split; [exact H7|]. split; [exact H5|]. split; [exact Hbig|].
  by apply Hr.
Defined.

(** When [days] is absent, empty or made of ASCII white space, or its first
    character after the white space is an ASCII character that is neither a
    digit nor a sign, [parseInt] finds no number and the route asks for 3
    days. *)
Theorem route_days_not_a_number (L : string) (w : World) (ws : string)
    (c : ascii) (r : string) :
  all_chars is_white_space ws = true →
  is_ascii c = true → is_digit c = false → is_white_space c = false →
  c ≠ "+"%char → c ≠ "-"%char →
  parseInt (ws +:+ String c r) = NotANumber ∧
  route_days (Some (QStr (ws +:+ String c r))) = Finite 3 ∧
  route_forecast L (Some (QStr (ws +:+ String c r))) w
  = Some (respond (getForecast L 3) w) ∧
  parseInt ws = NotANumber ∧
  route_days (Some (QStr ws)) = Finite 3 ∧
  route_days None = Finite 3.
Proof.
  intros Hws Hascii Hc Hcw Hplus Hminus.
  assert (H1 : parseInt (ws +:+ String c r) = NotANumber).
  { unfold parseInt. rewrite trim_start_white_space by done.
    rewrite (trim_start_ascii c r Hascii Hcw).
    destruct c as [[] [] [] [] [] [] [] []]; done. }
  assert (H2 : parseInt ws = NotANumber).
  { unfold parseInt. by rewrite trim_start_all_white_space. }
  assert (H3 : route_days (Some (QStr (ws +:+ String c r))) = Finite 3).
  { unfold route_days. cbn [query_to_string qs_to_string]. by rewrite H1. }
  split; [done|]. split; [done|]. split; [by apply route_forecast_exact|].
  split; [done|]. split; [|done].
  unfold route_days. cbn [query_to_string qs_to_string]. by rewrite H2.
Qed.

Lemma route_days_not_a_number_witness :
  route_days (Some (QStr " abc")) = Finite 3
  ∧ route_days (Some (QStr "  ")) = Finite 3.
Proof.
  pose proof (route_days_not_a_number "Tokyo"
                (new_WeatherAPI "k" default_duration 0 net_401)
                " " "a" "bc" eq_refl eq_refl eq_refl eq_refl
                ltac:(discriminate) ltac:(discriminate)) as (_ & H1 & _).
  pose proof (route_days_not_a_number "Tokyo"
                (new_WeatherAPI "k" default_duration 0 net_401)
                "  " "a" "" eq_refl eq_refl eq_refl eq_refl
                ltac:(discriminate) ltac:(discriminate))
    as (_ & _ & _ & _ & H2 & _).
  split; [exact H1|exact H2].
Defined.

(** ** Cache keys and the entries they name *)

(** A first access: no entry under the key, a payload the method accepts. *)
Lemma getCurrentWeather_populates L w data :
  WeatherCache.cache (cache w) !! current_key L = None →
  result (reply_to (current_request (apiKey w) L) w) = inl data →
  current_ok data = true →
  let arrival :=
    now w + Z.of_nat (latency (reply_to (current_request (apiKey w) L) w)) in
  (getCurrentWeather L w).1 = Normal (weatherData_of data) ∧
  WeatherCache.cache (cache (getCurrentWeather L w).2) !! current_key L
  = Some (WeatherCache.mkEntry (weatherData_of data) arrival) ∧
  log (getCurrentWeather L w).2 = log w ++ [current_request (apiKey w) L].
Proof.
  intros Hnone Hreply Hok arrival.
  pose proof (getCurrentWeather_miss L w VNull (cache w)
                (get_absent _ _ _ Hnone) eq_refl) as Hrun.
  cbv zeta in Hrun. rewrite Hreply in Hrun.
  unfold current_ok in Hok.
  destruct (nullish data); [done|].
  destruct (nullish (field data "location")); [done|].
  destruct (nullish (field data "current")); [done|].
  destruct (nullish (field (field data "current") "condition")); [done|].
  cbn [orb] in Hrun. rewrite Hrun. cbn [fst snd cache with_cache log with_request].
  split; [done|]. split; [apply lookup_insert_eq|done].
Qed.

Lemma getForecast_populates L d w data :
  WeatherCache.cache (cache w) !! forecast_key L d = None →
  result (reply_to (forecast_request (apiKey w) L d) w) = inl data →
  forecast_ok data = true →
  let arrival :=
    now w + Z.of_nat (latency (reply_to (forecast_request (apiKey w) L d) w)) in
  (getForecast L d w).1 = Normal (forecast_value data) ∧
  WeatherCache.cache (cache (getForecast L d w).2) !! forecast_key L d
  = Some (WeatherCache.mkEntry (forecast_value data) arrival) ∧
  log (getForecast L d w).2 = log w ++ [forecast_request (apiKey w) L d].
Proof.
  intros Hnone Hreply Hok arrival.
  pose proof (getForecast_fetch L d w VNull (cache w) data
                (get_absent _ _ _ Hnone) eq_refl Hreply) as Hrun.
  rewrite Hok in Hrun. rewrite Hrun.
  cbn [fst snd cache with_cache log with_request].
  split; [done|]. split; [apply lookup_insert_eq|done].
Qed.

(** A later access: a fresh entry under the key is what the method returns,
    and nothing changes. *)
Lemma getCurrentWeather_reads_key L w e :
  WeatherCache.cache (cache w) !! current_key L = Some e →
  now w - WeatherCache.timestamp e < WeatherCache.cacheDuration (cache w) →
  truthy (WeatherCache.data e) = true →
  getCurrentWeather L w = (Normal (WeatherCache.data e), w).
Proof.
  intros He Hfresh Hv.
  rewrite (getCurrentWeather_hit L w _ _ (get_fresh _ _ _ _ He Hfresh) Hv).
  by destruct w.
Qed.

Lemma getForecast_reads_key L d w e :
  WeatherCache.cache (cache w) !! forecast_key L d = Some e →
  now w - WeatherCache.timestamp e < WeatherCache.cacheDuration (cache w) →
  truthy (WeatherCache.data e) = true →
  getForecast L d w = (Normal (WeatherCache.data e), w).
Proof.
  intros He Hfresh Hv.
  rewrite (getForecast_hit L d w _ _ (get_fresh _ _ _ _ He Hfresh) Hv).
  by destruct w.
Qed.

(** C3: the key of [getCurrentWeather(L)] is ["current_"] followed by [L]
    as given, the key of [getForecast(L, days)] is made of [L] and the day
    count; different arguments give different keys (["Paris"] and
    ["paris"], 3 and 5 days).  A call looks up the entry under its own key,
    returns it when it is fresh and otherwise asks the provider and stores
    what it built under that key; no other entry changes.  So two first
    accesses with different arguments send two requests and leave two
    entries.  Day counts are the integers below 2^53 in absolute value. *)
Theorem C3_cache_keys :
  (∀ L, current_key L = "current_" +:+ L) ∧
  (∀ L1 L2, current_key L1 = current_key L2 → L1 = L2) ∧
  current_key "Paris" ≠ current_key "paris" ∧
  (∀ L d, exact_integer d = true →
     forecast_key L d = "forecast_" +:+ L +:+ "_" +:+ pretty d) ∧
  (∀ L1 d1 L2 d2, exact_integer d1 = true → exact_integer d2 = true →
     forecast_key L1 d1 = forecast_key L2 d2 → L1 = L2 ∧ d1 = d2) ∧
  forecast_key "Tokyo" 3 ≠ forecast_key "Tokyo" 5 ∧
  (∀ L w e,
     WeatherCache.cache (cache w) !! current_key L = Some e →
     now w - WeatherCache.timestamp e < WeatherCache.cacheDuration (cache w) →
     truthy (WeatherCache.data e) = true →
     getCurrentWeather L w = (Normal (WeatherCache.data e), w)) ∧
  (∀ L d w e, exact_integer d = true →
     WeatherCache.cache (cache w) !! forecast_key L d = Some e →
     now w - WeatherCache.timestamp e < WeatherCache.cacheDuration (cache w) →
     truthy (WeatherCache.data e) = true →
     getForecast L d w = (Normal (WeatherCache.data e), w)) ∧
  (∀ L w k, k ≠ current_key L →
     WeatherCache.cache (cache (getCurrentWeather L w).2) !! k
     = WeatherCache.cache (cache w) !! k) ∧
  (∀ L d w k, exact_integer d = true → k ≠ forecast_key L d →
     WeatherCache.cache (cache (getForecast L d w).2) !! k
     = WeatherCache.cache (cache w) !! k) ∧
  (∀ L w v, (getCurrentWeather L w).1 = Normal v →
     ∃ ts, WeatherCache.cache (cache (getCurrentWeather L w).2) !! current_key L
           = Some (WeatherCache.mkEntry v ts)) ∧
  (∀ L d w v, exact_integer d = true → (getForecast L d w).1 = Normal v →
     ∃ ts, WeatherCache.cache (cache (getForecast L d w).2) !! forecast_key L d
           = Some (WeatherCache.mkEntry v ts)) ∧
  (∀ L1 L2 w t, L1 ≠ L2 →
     WeatherCache.cache (cache w) !! current_key L2 = None →
     let w1 := (getCurrentWeather L1 w).2 in
     log (getCurrentWeather L2 (at_time t w1)).2
     = log w1 ++ [current_request (apiKey w) L2]) ∧
  (∀ L d1 d2 w t, exact_integer d1 = true → exact_integer d2 = true →
     d1 ≠ d2 →
     WeatherCache.cache (cache w) !! forecast_key L d2 = None →
     let w1 := (getForecast L d1 w).2 in
     log (getForecast L d2 (at_time t w1)).2
     = log w1 ++ [forecast_request (apiKey w) L d2]) ∧
  (∀ L w data,
     WeatherCache.cache (cache w) !! current_key L = None →
     result (reply_to (current_request (apiKey w) L) w) = inl data →
     current_ok data = true →
     (getCurrentWeather L w).1 = Normal (weatherData_of data) ∧
     WeatherCache.cache (cache (getCurrentWeather L w).2) !! current_key L
     = Some (WeatherCache.mkEntry (weatherData_of data)
               (now w + Z.of_nat (latency
                  (reply_to (current_request (apiKey w) L) w)))) ∧
     log (getCurrentWeather L w).2 = log w ++ [current_request (apiKey w) L]) ∧
  (∀ L d w data, exact_integer d = true →
     WeatherCache.cache (cache w) !! forecast_key L d = None →
     result (reply_to (forecast_request (apiKey w) L d) w) = inl data →
     forecast_ok data = true →
     (getForecast L d w).1 = Normal (forecast_value data) ∧
     WeatherCache.cache (cache (getForecast L d w).2) !! forecast_key L d
     = Some (WeatherCache.mkEntry (forecast_value data)
               (now w + Z.of_nat (latency
                  (reply_to (forecast_request (apiKey w) L d) w)))) ∧
     log (getForecast L d w).2 = log w ++ [forecast_request (apiKey w) L d]) ∧
  (∀ L1 L2 w t data1 data2, L1 ≠ L2 →
     WeatherCache.cache (cache w) !! current_key L1 = None →
     WeatherCache.cache (cache w) !! current_key L2 = None →
     result (reply_to (current_request (apiKey w) L1) w) = inl data1 →
     current_ok data1 = true →
     let w1 := at_time t (getCurrentWeather L1 w).2 in
     result (reply_to (current_request (apiKey w) L2) w1) = inl data2 →
     current_ok data2 = true →
     let w2 := (getCurrentWeather L2 w1).2 in
     log w2 = log w ++ [current_request (apiKey w) L1;
                        current_request (apiKey w) L2] ∧
     WeatherCache.cache (cache w2) !! current_key L1
     = Some (WeatherCache.mkEntry (weatherData_of data1)
               (now w + Z.of_nat (latency
                  (reply_to (current_request (apiKey w) L1) w)))) ∧
     WeatherCache.cache (cache w2) !! current_key L2
     = Some (WeatherCache.mkEntry (weatherData_of data2)
               (t + Z.of_nat (latency
                  (reply_to (current_request (apiKey w) L2) w1))))) ∧
  (∀ L d1 d2 w t data1 data2,
     exact_integer d1 = true → exact_integer d2 = true → d1 ≠ d2 →
     WeatherCache.cache (cache w) !! forecast_key L d1 = None →
     WeatherCache.cache (cache w) !! forecast_key L d2 = None →
     result (reply_to (forecast_request (apiKey w) L d1) w) = inl data1 →
     forecast_ok data1 = true →
     let w1 := at_time t (getForecast L d1 w).2 in
     result (reply_to (forecast_request (apiKey w) L d2) w1) = inl data2 →
     forecast_ok data2 = true →
     let w2 := (getForecast L d2 w1).2 in
     log w2 = log w ++ [forecast_request (apiKey w) L d1;
                        forecast_request (apiKey w) L d2] ∧
     WeatherCache.cache (cache w2) !! forecast_key L d1
     = Some (WeatherCache.mkEntry (forecast_value data1)
               (now w + Z.of_nat (latency
                  (reply_to (forecast_request (apiKey w) L d1) w)))) ∧
     WeatherCache.cache (cache w2) !! forecast_key L d2
     = Some (WeatherCache.mkEntry (forecast_value data2)
               (t + Z.of_nat (latency
                  (reply_to (forecast_request (apiKey w) L d2) w1))))).
Proof.
  repeat apply conj.
  - done.
  - apply current_key_inj.
  - intros H. by apply current_key_inj in H.
  - intros L d _. done.
  - intros L1 d1 L2 d2 _ _. apply forecast_key_inj.
  - intros H. by apply forecast_key_inj in H as [_ ?].
  - apply getCurrentWeather_reads_key.
  - intros L d w e _. apply getForecast_reads_key.
  - intros L w k. apply (outcome_frame (getCurrentWeather_outcome L w)).
  - intros L d w k _. apply (outcome_frame (getForecast_outcome L d w)).
  - intros L w v. apply (outcome_stored (getCurrentWeather_outcome L w)).
  - intros L d w v _. apply (outcome_stored (getForecast_outcome L d w)).
  - intros L1 L2 w t HL Hnone w1.
    pose proof (getCurrentWeather_outcome L2 (at_time t w1)) as Hout.
    apply outcome_miss_sends in Hout.
    + rewrite Hout. cbn [at_time apiKey log]. unfold w1.
      by rewrite (outcome_apiKey (getCurrentWeather_outcome L1 w)).
    + cbn [at_time cache]. unfold w1.
      rewrite (outcome_frame (getCurrentWeather_outcome L1 w)); [done|].
      intros H. by apply current_key_inj in H.
  - intros L d1 d2 w t _ _ Hd Hnone w1.
    pose proof (getForecast_outcome L d2 (at_time t w1)) as Hout.
    apply outcome_miss_sends in Hout.
    + rewrite Hout. cbn [at_time apiKey log]. unfold w1.
      by rewrite (outcome_apiKey (getForecast_outcome L d1 w)).
    + cbn [at_time cache]. unfold w1.
      rewrite (outcome_frame (getForecast_outcome L d1 w)); [done|].
      intros H. by apply forecast_key_inj in H as [_ ?].
  - intros L w data. apply getCurrentWeather_populates.
  - intros L d w data _. apply getForecast_populates.
  - intros L1 L2 w t data1 data2 HL Hn1 Hn2 Hr1 Hok1 w1 Hr2 Hok2 w2.
    destruct (getCurrentWeather_populates L1 w data1 Hn1 Hr1 Hok1)
      as (_ & Hstored1 & Hlog1).
    assert (Hkey : apiKey w1 = apiKey w).
    { apply (outcome_apiKey (getCurrentWeather_outcome L1 w)). }
    assert (Hn2' : WeatherCache.cache (cache w1) !! current_key L2 = None).
    { cbn [w1 at_time cache].
      rewrite (outcome_frame (getCurrentWeather_outcome L1 w)); [done|].
      intros H. by apply current_key_inj in H. }
    rewrite <-Hkey in Hr2.
    destruct (getCurrentWeather_populates L2 w1 data2 Hn2' Hr2 Hok2)
      as (_ & Hstored2 & Hlog2).
    rewrite Hkey in Hstored2, Hlog2. fold w2 in Hstored2, Hlog2.
    split; [|split].
    + rewrite Hlog2. cbn [w1 at_time log]. by rewrite Hlog1, <-app_assoc.
    + unfold w2.
      rewrite (outcome_frame (getCurrentWeather_outcome L2 w1)).
      * exact Hstored1.
      * intros H. by apply current_key_inj in H.
    + exact Hstored2.
  - intros L d1 d2 w t data1 data2 _ _ Hd Hn1 Hn2 Hr1 Hok1 w1 Hr2 Hok2 w2.
    destruct (getForecast_populates L d1 w data1 Hn1 Hr1 Hok1)
      as (_ & Hstored1 & Hlog1).
    assert (Hkey : apiKey w1 = apiKey w).
    { apply (outcome_apiKey (getForecast_outcome L d1 w)). }
    assert (Hn2' : WeatherCache.cache (cache w1) !! forecast_key L d2 = None).
    { cbn [w1 at_time cache].
      rewrite (outcome_frame (getForecast_outcome L d1 w)); [done|].
      intros H. by apply forecast_key_inj in H as [_ ?]. }
    rewrite <-Hkey in Hr2.
    destruct (getForecast_populates L d2 w1 data2 Hn2' Hr2 Hok2)
      as (_ & Hstored2 & Hlog2).
    rewrite Hkey in Hstored2, Hlog2. fold w2 in Hstored2, Hlog2.
    split; [|split].
    + rewrite Hlog2. cbn [w1 at_time log]. by rewrite Hlog1, <-app_assoc.
    + unfold w2.
      rewrite (outcome_frame (getForecast_outcome L d2 w1)).
      * exact Hstored1.
      * intros H. by apply forecast_key_inj in H as [_ ?].
    + exact Hstored2.
Qed.

Lemma C3_cache_keys_witness :
  let w := new_WeatherAPI "k" default_duration 0 (net_always sample_current) in
  let w2 := (getCurrentWeather "paris"
               (at_time 60 (getCurrentWeather "Paris" w).2)).2 in
  let v := new_WeatherAPI "k" default_duration 0 (net_always sample_forecast) in
  let v2 := (getForecast "Tokyo" 5 (at_time 60 (getForecast "Tokyo" 3 v).2)).2 in
  (log w2 = [current_request "k" "Paris"; current_request "k" "paris"] ∧
   WeatherCache.cache (cache w2) !! "current_Paris"
   = Some (WeatherCache.mkEntry (weatherData_of sample_current) 20) ∧
   WeatherCache.cache (cache w2) !! "current_paris"
   = Some (WeatherCache.mkEntry (weatherData_of sample_current) 80)) ∧
  (log v2 = [forecast_request "k" "Tokyo" 3; forecast_request "k" "Tokyo" 5] ∧
   WeatherCache.cache (cache v2) !! "forecast_Tokyo_3"
   = Some (WeatherCache.mkEntry (forecast_value sample_forecast) 20) ∧
   WeatherCache.cache (cache v2) !! "forecast_Tokyo_5"
   = Some (WeatherCache.mkEntry (forecast_value sample_forecast) 80)).
Proof.
  intros w w2 v v2.
  destruct C3_cache_keys
    as (_ & _ & _ & _ & _ & _ & _ & _ & _ & _ & _ & _ & _ & _ & _ & _
        & Hcur & Hfor).
  split.
  - apply (Hcur "Paris" "paris" w 60 sample_current sample_current);
      by vm_compute.
  - apply (Hfor "Tokyo" 3 5 v 60 sample_forecast sample_forecast);
      by vm_compute.
Defined.

(** ** Calls that fail *)

(** A call of [getCurrentWeather] or [getForecast] that throws has sent its
    one request; the error is the provider's rejection as it came, or a
    [TypeError] when the payload could not be read; and the call has written
    nothing: every entry of the cache after it was there before (a stale
    entry under its key may have been removed), no other key is touched. *)
Theorem failed_call_writes_nothing o k w e :
  op_key o = Some k →
  (run_op o w).1 = Throw e →
  let w' := (run_op o w).2 in
  let req := op_request (apiKey w) o in
  log w' = log w ++ [req] ∧
  WeatherCache.cache (cache w') ⊆ WeatherCache.cache (cache w) ∧
  (∀ k', k' ≠ k →
     WeatherCache.cache (cache w') !! k' = WeatherCache.cache (cache w) !! k') ∧
  match result (reply_to req w) with
  | inr resp => e = AxiosError resp
  | inl data =>
      e = TypeError ∧
      match o with
      | OpCurrent _ => current_ok data = false
      | OpForecast _ _ => forecast_ok data = false
      | OpSearch _ => True
      end
  end.
Proof.
  intros Hk Hthrow w' req.
  pose proof (run_op_outcome o w) as Hout. rewrite Hk in Hout.
  pose proof (outcome_frame Hout) as Hframe. fold w' in Hframe.
  assert (Hown : log w' = log w ++ [req]
                 ∧ WeatherCache.cache (cache w') ⊆ WeatherCache.cache (cache w)).
  { unfold w'.
    destruct Hout as [v c _ _|v c e' Hget _|v c snap _ _ _ w1];
      cbn [fst] in Hthrow; [done| |done].
    cbn [snd log cache with_cache with_request]. split; [done|].
    pose proof (get_subseteq (now w) k (cache w)) as Hs.
    by rewrite Hget in Hs. }
  destruct Hown as [Hlog Hsub].
  split; [done|]. split; [done|]. split; [done|].
  destruct o as [L|L d|q]; cbn [op_key run_op op_request] in *; [| |done].
  - injection Hk as <-.
    destruct (WeatherCache.get (now w) (current_key L) (cache w))
      as [v c] eqn:Hget.
    destruct (truthy v) eqn:Hv.
    { by rewrite (getCurrentWeather_hit _ _ _ _ Hget Hv) in Hthrow. }
    rewrite (getCurrentWeather_miss _ _ _ _ Hget Hv) in Hthrow.
    cbv zeta in Hthrow. fold req in Hthrow |- *.
    destruct (result (reply_to req w)) as [data|resp];
      [|by injection Hthrow as <-].
    unfold current_ok.
    destruct (nullish data); cbn [orb negb andb] in *;
      [by injection Hthrow as <-|].
    destruct (nullish (field data "location")); cbn [orb negb andb] in *;
      [by injection Hthrow as <-|].
    destruct (nullish (field data "current")); cbn [orb negb andb] in *;
      [by injection Hthrow as <-|].
    destruct (nullish (field (field data "current") "condition"));
      cbn [orb negb andb] in *; [by injection Hthrow as <-|done].
  - injection Hk as <-.
    destruct (WeatherCache.get (now w) (forecast_key L d) (cache w))
      as [v c] eqn:Hget.
    destruct (truthy v) eqn:Hv.
    { by rewrite (getForecast_hit _ _ _ _ _ Hget Hv) in Hthrow. }
    fold req.
    destruct (result (reply_to req w)) as [data|resp] eqn:Hreply.
    + rewrite (getForecast_fetch _ _ _ _ _ _ Hget Hv Hreply) in Hthrow.
      destruct (forecast_ok data); [done|]. by injection Hthrow as <-.
    + pose proof (getForecast_miss _ _ _ _ _ Hget Hv) as Hrun.
      cbv zeta in Hrun. fold req in Hrun. rewrite Hreply in Hrun.
      rewrite Hrun in Hthrow. by injection Hthrow as <-.
Qed.

Lemma failed_call_writes_nothing_witness :
  let w := (run_op (OpCurrent "Berlin")
              (new_WeatherAPI "k" default_duration 0 net_401)).2 in
  log (run_op (OpForecast "Tokyo" 3) w).2
  = [current_request "k" "Berlin"; forecast_request "k" "Tokyo" 3]
  ∧ WeatherCache.cache (cache (run_op (OpForecast "Tokyo" 3) w).2)
    ⊆ WeatherCache.cache (cache w).
Proof.
  intros w.
  destruct (failed_call_writes_nothing (OpForecast "Tokyo" 3)
              (forecast_key "Tokyo" 3) w
              (AxiosError (Some (401, VObj [("error",
                             VObj [("message", VStr "Invalid key")])])))
              eq_refl eq_refl) as (Hlog & Hsub & _).
  split; [exact Hlog|exact Hsub].
Defined.
